(** * The C# code searcher of [code_search_tool.py], embedded and verified

    The development follows the class [CSharpCodeSearcher]: text
    primitives of the Python runtime the class relies on, the fragment of
    the [re] module its patterns are written in, a file-system tree with the
    pruned [os.walk] traversal, and then the four public operations
    [scan_codebase], [search_code], [analyze_project_structure] and
    [get_file_content].

    Text is modelled over one-byte characters ([ascii]).  [str.lower],
    [str.isspace] and the classes [\w] and [\s] are the Python ones on the
    codes below 128; a character above that is neither a word character
    nor a space and has no case.  [Path.suffix] is that of Python 3.11. *)

From Stdlib Require Import ZArith Ascii String.
From stdpp Require Import base gmap sets list strings pretty.

Local Open Scope Z_scope.

(** ** Text primitives *)

Module Text.

Definition code (c : ascii) : N := N_of_ascii c.

Definition between (lo hi : N) (c : ascii) : bool :=
  ((lo <=? code c) && (code c <=? hi))%N.

(** [str.isspace] on the one-byte range: TAB..CR, FS..US and the blank. *)
Definition is_space (c : ascii) : bool :=
  between 9 13 c || between 28 32 c.

(** The class [\w]: letters, digits and the underscore. *)
Definition is_word (c : ascii) : bool :=
  between 97 122 c || between 65 90 c || between 48 57 c || (code c =? 95)%N.

Definition lower_char (c : ascii) : ascii :=
  if between 65 90 c then ascii_of_N (code c + 32) else c.

(** [str.lower] *)
Fixpoint lower (s : string) : string :=
  match s with
  | EmptyString => EmptyString
  | String c s' => String (lower_char c) (lower s')
  end.

(** [str.startswith] *)
Fixpoint startswith (s p : string) {struct p} : bool :=
  match p, s with
  | EmptyString, _ => true
  | String a p', String c s' => if Ascii.eqb a c then startswith s' p' else false
  | String _ _, EmptyString => false
  end.

(** [sub in s] on strings *)
Fixpoint contains (sub s : string) : bool :=
  startswith s sub ||
  match s with
  | EmptyString => false
  | String _ s' => contains sub s'
  end.

Fixpoint lstrip (s : string) : string :=
  match s with
  | String c s' => if is_space c then lstrip s' else s
  | EmptyString => EmptyString
  end.

Fixpoint rstrip (s : string) : string :=
  match s with
  | EmptyString => EmptyString
  | String c s' =>
      match rstrip s' with
      | EmptyString => if is_space c then EmptyString else String c EmptyString
      | t => String c t
      end
  end.

(** [str.strip] without argument *)
Definition strip (s : string) : string := rstrip (lstrip s).

Definition newline : ascii := ascii_of_N 10.

(** [s.split('\n')]: the pieces between line feeds; never empty. *)
Fixpoint split_lines (s : string) : list string :=
  match s with
  | EmptyString => [EmptyString]
  | String c s' =>
      if Ascii.eqb c newline then EmptyString :: split_lines s'
      else match split_lines s' with
           | l :: ls => String c l :: ls
           | [] => [String c EmptyString]
           end
  end.

(** [f.readlines()]: the lines with their terminators kept; a text that
    does not end in a line feed has an unterminated last line, and the
    empty text has no line. *)
Fixpoint readlines (s : string) : list string :=
  match s with
  | EmptyString => []
  | String c s' =>
      if Ascii.eqb c newline then String c EmptyString :: readlines s'
      else match readlines s' with
           | l :: ls => String c l :: ls
           | [] => [String c EmptyString]
           end
  end.

(** Position of the last dot of a name, if any ([str.rfind]). *)
Fixpoint rfind_dot (s : string) : option nat :=
  match s with
  | EmptyString => None
  | String c s' =>
      match rfind_dot s' with
      | Some i => Some (S i)
      | None => if Ascii.eqb c "."%char then Some 0%nat else None
      end
  end.

Fixpoint drop_chars (n : nat) (s : string) : string :=
  match n, s with
  | O, _ => s
  | S n', String _ s' => drop_chars n' s'
  | S _, EmptyString => EmptyString
  end.

(** [PurePath.suffix]: the part of the final component from its last dot,
    unless that dot is the first or the last character of the name. *)
Definition suffix (name : string) : string :=
  match rfind_dot name with
  | Some i =>
      if ((0 <? i) && (i <? String.length name - 1))%nat
      then drop_chars i name else EmptyString
  | None => EmptyString
  end.

(** Python's slice [l[a:b]] with integer bounds: a negative bound counts
    from the end, and both are clamped to the list. *)
Definition clamp_index (len i : Z) : Z :=
  if i <? 0 then Z.max 0 (len + i) else Z.min i len.

Definition slice {A} (l : list A) (a b : Z) : list A :=
  let len := Z.of_nat (length l) in
  let a' := clamp_index len a in
  let b' := clamp_index len b in
  take (Z.to_nat (b' - a')) (drop (Z.to_nat a') l).

(** [l[:b]] *)
Definition slice_to {A} (l : list A) (b : Z) : list A := slice l 0 b.

End Text.

(** ** The fragment of [re] used by the searcher *)

Module Regex.
Import Text.

(** Character classes of the patterns: [.], [\s], [\w] and [[\w\.]]. *)
Inductive cclass := CAny | CSpace | CWord | CWordDot.

Definition in_class (k : cclass) (c : ascii) : bool :=
  match k with
  | CAny => negb (Ascii.eqb c newline)
  | CSpace => is_space c
  | CWord => is_word c
  | CWordDot => is_word c || Ascii.eqb c "."%char
  end.

(** A pattern is a sequence of items.  [Lit w] is text matched literally
    (what [re.escape] produces), [Alt ws] an alternation of literal words,
    [Star k] and [Plus k] the greedy repetitions of a class, [WordB] the
    assertion [\b], and [GOpen]/[GClose] the parentheses of a capturing
    group. *)
Inductive item :=
| Lit (w : string)
| Alt (ws : list string)
| Star (k : cclass)
| Plus (k : cclass)
| WordB
| GOpen
| GClose.

Definition pattern := list item.

Definition chars (s : string) : list ascii := list_ascii_of_string s.
Definition text (l : list ascii) : string := string_of_list_ascii l.

(** Two characters agree, up to case when [ci] ([re.IGNORECASE]). *)
Definition ch_eq (ci : bool) (a c : ascii) : bool :=
  if ci then Ascii.eqb (lower_char a) (lower_char c) else Ascii.eqb a c.

(** Consume the word [w] at the head of [s]; [before] is the text already
    passed, most recent character first. *)
Fixpoint eat (ci : bool) (w : list ascii) (before s : list ascii)
  : option (list ascii * list ascii) :=
  match w with
  | [] => Some (before, s)
  | a :: w' =>
      match s with
      | c :: s' => if ch_eq ci a c then eat ci w' (c :: before) s' else None
      | [] => None
      end
  end.

Definition word_at (o : option ascii) : bool :=
  match o with Some c => is_word c | None => false end.

(** [\b]: exactly one of the two neighbouring characters is a word
    character (the ends of the line count as non-word). *)
Definition at_boundary (before s : list ascii) : bool :=
  xorb (word_at (head before)) (word_at (head s)).

Section Loops.
Context {R : Type}.

(** Greedy repetition: take one more character of the class first, and
    fall back to the continuation when the longer attempt fails. *)
Definition star_loop (k : cclass)
    (cont : list ascii -> list ascii -> option R)
  : list ascii -> list ascii -> option R :=
  fix star (before s : list ascii) {struct s} : option R :=
    match s with
    | c :: s' =>
        if in_class k c then
          match star (c :: before) s' with
          | Some r => Some r
          | None => cont before s
          end
        else cont before s
    | [] => cont before s
    end.

(** Alternation: the first word whose continuation succeeds. *)
Definition alt_loop (ci : bool)
    (cont : list ascii -> list ascii -> option R)
    (before s : list ascii) : list string -> option R :=
  fix alt (ws : list string) : option R :=
    match ws with
    | [] => None
    | w :: ws' =>
        match eat ci (chars w) before s with
        | Some (b', s') =>
            match cont b' s' with
            | Some r => Some r
            | None => alt ws'
            end
        | None => alt ws'
        end
    end.
End Loops.

(** The backtracking matcher at one position.  [mark] is the length of
    [before] where the current group opened, [caps] the groups closed so
    far (latest first).  The result is the list of captured groups of the
    first successful attempt. *)
Fixpoint run (ci : bool) (p : pattern) (mark : nat) (caps : list string)
    (before s : list ascii) {struct p} : option (list string) :=
  match p with
  | [] => Some (rev caps)
  | Lit w :: r =>
      match eat ci (chars w) before s with
      | Some (b', s') => run ci r mark caps b' s'
      | None => None
      end
  | Alt ws :: r => alt_loop ci (run ci r mark caps) before s ws
  | Star k :: r => star_loop k (run ci r mark caps) before s
  | Plus k :: r =>
      match s with
      | c :: s' =>
          if in_class k c
          then star_loop k (run ci r mark caps) (c :: before) s'
          else None
      | [] => None
      end
  | WordB :: r => if at_boundary before s then run ci r mark caps before s else None
  | GOpen :: r => run ci r (length before) caps before s
  | GClose :: r =>
      run ci r mark (text (rev (take (length before - mark) before)) :: caps) before s
  end.

(** [re.match]: the pattern at the start of the line. *)
Definition re_match (ci : bool) (p : pattern) (line : string) : option (list string) :=
  run ci p 0 [] [] (chars line).

Fixpoint search_from (ci : bool) (p : pattern) (before s : list ascii)
  : option (list string) :=
  match run ci p 0 [] before s with
  | Some r => Some r
  | None =>
      match s with
      | c :: s' => search_from ci p (c :: before) s'
      | [] => None
      end
  end.

(** [re.search]: the pattern at the leftmost position where it matches. *)
Definition re_search (ci : bool) (p : pattern) (line : string) : option (list string) :=
  search_from ci p [] (chars line).

(** [m.group(n)] for [n >= 1] *)
Definition group (n : nat) (caps : list string) : string :=
  default EmptyString (caps !! (n - 1)%nat).

(** The declarative reading of a pattern: [Matches ci p before s] holds
    when some prefix of [s] is matched by [p], [before] being the text to
    the left of the position (most recent character first). *)
Inductive Matches (ci : bool) : pattern -> list ascii -> list ascii -> Prop :=
| M_nil before s : Matches ci [] before s
| M_lit w r before s b' s' :
    eat ci (chars w) before s = Some (b', s') ->
    Matches ci r b' s' ->
    Matches ci (Lit w :: r) before s
| M_alt ws w r before s b' s' :
    w ∈ ws ->
    eat ci (chars w) before s = Some (b', s') ->
    Matches ci r b' s' ->
    Matches ci (Alt ws :: r) before s
| M_star k r before taken s' :
    Forall (fun c => in_class k c = true) taken ->
    Matches ci r (rev taken ++ before) s' ->
    Matches ci (Star k :: r) before (taken ++ s')
| M_plus k r before taken s' :
    taken ≠ [] ->
    Forall (fun c => in_class k c = true) taken ->
    Matches ci r (rev taken ++ before) s' ->
    Matches ci (Plus k :: r) before (taken ++ s')
| M_wordb r before s :
    at_boundary before s = true ->
    Matches ci r before s ->
    Matches ci (WordB :: r) before s
| M_open r before s : Matches ci r before s -> Matches ci (GOpen :: r) before s
| M_close r before s : Matches ci r before s -> Matches ci (GClose :: r) before s.

End Regex.


(** ** The file system and [os.walk] *)

Module FS.
Import Text.

(** A path relative to the searched root, as its components. *)
Definition Path := list string.

(** [str(path)] *)
Fixpoint path_str (p : Path) : string :=
  match p with
  | [] => "."
  | [c] => c
  | c :: p' => c +:+ "/" +:+ path_str p'
  end.

(** [path.name], the final component *)
Definition path_name (p : Path) : string := default EmptyString (last p).

(** The tree holds regular files and directories only (no symbolic
    links).  A regular file as the searcher sees it: [st_size] is what [stat]
    reports ([None] when [stat] raises [OSError]) and [f_text] the decoded
    text that [open(...).read()] returns ([None] when reading raises). *)
Record fileinfo := { f_name : string; st_size : option Z; f_text : option string }.

Local Unset Elimination Schemes.
Inductive node :=
| File (f : fileinfo)
| Dir (name : string) (children : list node).
Local Set Elimination Schemes.

(** Induction over trees, with the hypothesis on every child. *)
Fixpoint node_ind (P : node -> Prop)
    (HF : forall f, P (File f))
    (HD : forall name children, Forall P children -> P (Dir name children))
    (n : node) : P n :=
  match n with
  | File f => HF f
  | Dir name children =>
      HD name children
         ((fix all (l : list node) : Forall P l :=
             match l with
             | [] => Forall_nil_2 P
             | ch :: l' => Forall_cons_2 P ch l' (node_ind P HF HD ch) (all l')
             end) children)
  end.

Definition subfiles (children : list node) : list fileinfo :=
  omap (fun n => match n with File f => Some f | Dir _ _ => None end) children.

(** One step of the traversal: the directory reached and its files. *)
Definition walk_entry := (Path * list fileinfo)%type.

(** [os.walk(top)], top-down, with the in-place pruning of [dirs] that
    every loop of the searcher performs first: [keep] decides, from the
    path of a sub-directory, whether the traversal descends into it.  A
    top that is not a directory yields nothing (the listing error is
    dropped by [os.walk]). *)
Fixpoint walk (keep : Path -> bool) (root_path : Path) (n : node) : list walk_entry :=
  match n with
  | File _ => []
  | Dir _ children =>
      (root_path, subfiles children) ::
      flat_map (fun ch =>
                  match ch with
                  | Dir d _ =>
                      if keep (root_path ++ [d]) then walk keep (root_path ++ [d]) ch else []
                  | File _ => []
                  end) children
  end.

(** [os.walk] from a root that may be missing. *)
Definition walk_root (keep : Path -> bool) (top : option node) : list walk_entry :=
  match top with
  | Some n => walk keep [] n
  | None => []
  end.

(** Resolution of a relative path below a node. *)
Fixpoint find (comps : Path) (n : node) {struct comps} : option node :=
  match comps with
  | [] => Some n
  | c :: rest =>
      match n with
      | Dir _ children =>
          (fix pick (l : list node) : option node :=
             match l with
             | [] => None
             | ch :: l' =>
                 let nm := match ch with File f => f_name f | Dir d _ => d end in
                 if String.eqb nm c then find rest ch else pick l'
             end) children
      | File _ => None
      end
  end.

End FS.

(** ** The searcher *)

Module Searcher.
Import Text Regex FS.

(** The attributes set by [__init__].  [max_file_size_bytes] is the
    ceiling in bytes; a size is an integer, so comparing it with the
    product computed by the constructor is comparing it with that
    product rounded down. *)
Record CSharpCodeSearcher := {
  code_folder_path : string;
  skip_folders : list string;
  file_extensions : list string;
  max_file_size_bytes : Z
}.

(** [skip_folders or [...]] and [file_extensions or [...]]: a missing or
    empty list stands for the default. *)
Definition or_default (given : option (list string)) (dflt : list string) : list string :=
  match given with
  | Some (x :: l) => x :: l
  | _ => dflt
  end.

(** The constructor, for a ceiling given in whole megabytes. *)
Definition __init__ (code_folder_path : string)
    (skip_folders file_extensions : option (list string)) (max_file_size_mb : Z)
  : CSharpCodeSearcher :=
  {| code_folder_path := code_folder_path;
     skip_folders :=
       or_default skip_folders
         ["bin"; "obj"; ".vs"; ".git"; ".svn"; "packages";
          "node_modules"; "Debug"; "Release"; ".vscode"];
     file_extensions :=
       or_default file_extensions
         [".cs"; ".csx"; ".cshtml"; ".razor"; ".xaml";
          ".config"; ".json"; ".xml"; ".yml"; ".yaml";
          ".sql"; ".md"; ".txt"; ".sln"; ".csproj"];
     max_file_size_bytes := max_file_size_mb * 1024 * 1024 |}.

(** The disk: what each root path denotes, if it exists. *)
Abbreviation disk := (gmap string node).

Inductive exn := FileNotFoundError (msg : string).

Inductive outcome (A : Type) :=
| Returned (a : A)
| Raised (e : exn).
Arguments Returned {A} a.
Arguments Raised {A} e.

Section Methods.
Variable self : CSharpCodeSearcher.

Definition _should_skip_folder (folder_path : Path) : bool :=
  let folder_name := lower (path_name folder_path) in
  existsb (fun skip_pattern => contains (lower skip_pattern) folder_name)
          (skip_folders self).

Definition _should_include_file (file_path : Path) (f : fileinfo) : bool :=
  if negb (existsb (fun ext => String.eqb (lower (suffix (path_name file_path))) (lower ext))
                   (file_extensions self))
  then false
  else match st_size f with
       | Some sz => if sz >? max_file_size_bytes self then false else true
       | None => false
       end.

(** The traversal shared by the three operations:
    [for root, dirs, files in os.walk(...)] with
    [dirs[:] = [d for d in dirs if not self._should_skip_folder(root_path / d)]]. *)
Definition pruned_walk (fs : disk) : list walk_entry :=
  walk_root (fun p => negb (_should_skip_folder p)) (fs !! code_folder_path self).

(** *** scan_codebase *)

Record ScanResult := {
  summary : gmap string (list Path);
  total_files : Z;
  project_root : string
}.

Definition scan_file (root_path : Path) (st : gmap string (list Path) * Z) (f : fileinfo)
  : gmap string (list Path) * Z :=
  let file_path := root_path ++ [f_name f] in
  if _should_include_file file_path f then
    let ext := lower (suffix (path_name file_path)) in
    let file_summary :=
      match fst st !! ext with
      | Some _ => fst st
      | None => <[ext := []]> (fst st)
      end in
    (alter (fun l => l ++ [file_path]) ext file_summary, snd st + 1)
  else st.

Definition scan_entry (st : gmap string (list Path) * Z) (e : walk_entry)
  : gmap string (list Path) * Z :=
  fold_left (scan_file (fst e)) (snd e) st.

Definition scan_codebase (fs : disk) : outcome ScanResult :=
  match fs !! code_folder_path self with
  | None => Raised (FileNotFoundError ("Code folder not found: " +:+ code_folder_path self))
  | Some _ =>
      let st := fold_left scan_entry (pruned_walk fs) (∅, 0) in
      Returned {| summary := fst st; total_files := snd st;
                  project_root := code_folder_path self |}
  end.

(** *** search_code *)

(** A match record.  [file_] is the relative path, which the source
    renders with [str]; a filename match has no context fields. *)
Record MatchRecord := {
  file_ : Path;
  type_ : string;
  line_number : Z;
  match_ : string;
  context : option (list string);
  context_start_line : option Z
}.

Definition _get_search_patterns (query search_type : string) : list pattern :=
  let escaped_query := Lit query in
  if String.eqb search_type "content" then
    [ [escaped_query] ]
  else if String.eqb search_type "class" then
    [ [WordB; Lit "class"; Plus CSpace; escaped_query; WordB];
      [WordB; Lit "interface"; Plus CSpace; escaped_query; WordB];
      [WordB; Lit "struct"; Plus CSpace; escaped_query; WordB];
      [WordB; Lit "enum"; Plus CSpace; escaped_query; WordB] ]
  else if String.eqb search_type "method" then
    [ [WordB; escaped_query; Star CSpace; Lit "("];
      [GOpen; Alt ["public"; "private"; "protected"; "internal"; "static"]; GClose;
       Star CAny; WordB; escaped_query; Star CSpace; Lit "("] ]
  else if String.eqb search_type "variable" then
    [ [WordB; escaped_query; WordB];
      [GOpen; Alt ["var"; "int"; "string"; "bool"; "double"; "float"; "decimal"; "object"];
       GClose; Plus CSpace; escaped_query; WordB] ]
  else [].

(** [enumerate(l, start)] *)
Fixpoint enumerate {A} (l : list A) (start : Z) : list (Z * A) :=
  match l with
  | [] => []
  | x :: l' => (start, x) :: enumerate l' (start + 1)
  end.

(** Whether some pattern of the mode is found in the line: the inner
    [for pattern in search_patterns] with its [break]. *)
Definition line_matches (search_patterns : list pattern) (case_sensitive : bool)
    (line : string) : bool :=
  existsb (fun pattern => bool_decide (is_Some (re_search (negb case_sensitive) pattern line)))
          search_patterns.

Definition _search_in_file (content : string) (file_path : Path)
    (query search_type : string) (case_sensitive : bool) (context_lines : Z)
  : list MatchRecord :=
  let lines := split_lines content in
  let relative_path := file_path in
  if String.eqb search_type "filename" then
    if (case_sensitive && contains query (path_name file_path))
       || (negb case_sensitive && contains (lower query) (lower (path_name file_path)))
    then [ {| file_ := relative_path; type_ := "filename";
              match_ := path_name file_path; line_number := 0;
              context := None; context_start_line := None |} ]
    else []
  else if bool_decide (search_type ∈ ["content"; "class"; "method"; "variable"]) then
    let search_patterns := _get_search_patterns query search_type in
    flat_map (fun '(i, line) =>
                if line_matches search_patterns case_sensitive line then
                  let start_line := Z.max 0 (i - 1 - context_lines) in
                  let end_line := Z.min (Z.of_nat (length lines)) (i + context_lines) in
                  [ {| file_ := relative_path; type_ := search_type;
                       line_number := i; match_ := strip line;
                       context := Some (slice lines start_line end_line);
                       context_start_line := Some (start_line + 1) |} ]
                else [])
             (enumerate lines 1)
  else [].

(** The state of the search loops: the matches accumulated so far and,
    as a trace of the effects, the files opened so far in order. *)
Record search_state := {
  results_ : list MatchRecord;
  opened : list (Path * fileinfo)
}.

Section SearchLoops.
Variables (query search_type : string) (case_sensitive : bool)
          (max_results context_lines : Z).

Definition reached (results : list MatchRecord) : bool :=
  Z.of_nat (length results) >=? max_results.

(** The inner [for file in files] loop, up to its [break]. *)
Fixpoint search_files (root_path : Path) (files : list fileinfo) (st : search_state)
  : search_state :=
  match files with
  | [] => st
  | f :: rest =>
      let file_path := root_path ++ [f_name f] in
      if negb (_should_include_file file_path f) then search_files root_path rest st
      else
        let st1 := {| results_ := results_ st; opened := opened st ++ [(file_path, f)] |} in
        match f_text f with
        | None => search_files root_path rest st1
        | Some content =>
            let matches := _search_in_file content file_path query search_type
                                           case_sensitive context_lines in
            let st2 := {| results_ := results_ st1 ++ matches; opened := opened st1 |} in
            if reached (results_ st2) then st2
            else search_files root_path rest st2
        end
  end.

(** The outer loop over the traversal, up to its [break]. *)
Fixpoint search_walk (entries : list walk_entry) (st : search_state) : search_state :=
  match entries with
  | [] => st
  | (root_path, files) :: rest =>
      let st' := search_files root_path files st in
      if reached (results_ st') then st' else search_walk rest st'
  end.
End SearchLoops.

Record SearchResult := {
  query_ : string;
  search_type_ : string;
  total_matches : Z;
  results : list MatchRecord
}.

(** What [search_code] returns: the result mapping, or the mapping with
    an [error] key built by the handler of the outer [try]. *)
Inductive SearchReply :=
| SearchOk (r : SearchResult)
| SearchError (error : string).

Definition search_run (fs : disk) (query search_type : string) (case_sensitive : bool)
    (max_results context_lines : Z) : search_state :=
  search_walk query search_type case_sensitive max_results context_lines
              (pruned_walk fs) {| results_ := []; opened := [] |}.

(** Nothing in the modelled traversal raises ([os.walk] drops listing
    errors, [_should_include_file] catches [OSError], the per-file
    handler catches the rest), so the outer handler is never entered. *)
Definition search_code (fs : disk) (query search_type : string) (case_sensitive : bool)
    (max_results context_lines : Z) : SearchReply :=
  let st := search_run fs query search_type case_sensitive max_results context_lines in
  SearchOk {| query_ := query; search_type_ := search_type;
              total_matches := Z.of_nat (length (results_ st));
              results := slice_to (results_ st) max_results |}.

(** *** analyze_project_structure *)

Record method := { name : string; file : Path }.

(** The [analysis] dictionary that the traversal fills in place. *)
Record Analysis := {
  namespaces : gset string;
  classes : gset string;
  interfaces : gset string;
  methods : list method;
  using_statements : gset string;
  project_files : list Path
}.

Definition empty_analysis : Analysis :=
  {| namespaces := ∅; classes := ∅; interfaces := ∅; methods := [];
     using_statements := ∅; project_files := [] |}.

Definition add_using (x : string) (a : Analysis) : Analysis :=
  {| namespaces := namespaces a; classes := classes a; interfaces := interfaces a;
     methods := methods a; using_statements := {[x]} ∪ using_statements a;
     project_files := project_files a |}.
Definition add_namespace (x : string) (a : Analysis) : Analysis :=
  {| namespaces := {[x]} ∪ namespaces a; classes := classes a; interfaces := interfaces a;
     methods := methods a; using_statements := using_statements a;
     project_files := project_files a |}.
Definition add_class (x : string) (a : Analysis) : Analysis :=
  {| namespaces := namespaces a; classes := {[x]} ∪ classes a; interfaces := interfaces a;
     methods := methods a; using_statements := using_statements a;
     project_files := project_files a |}.
Definition add_interface (x : string) (a : Analysis) : Analysis :=
  {| namespaces := namespaces a; classes := classes a; interfaces := {[x]} ∪ interfaces a;
     methods := methods a; using_statements := using_statements a;
     project_files := project_files a |}.
Definition append_method (m : method) (a : Analysis) : Analysis :=
  {| namespaces := namespaces a; classes := classes a; interfaces := interfaces a;
     methods := methods a ++ [m]; using_statements := using_statements a;
     project_files := project_files a |}.
Definition append_project_file (p : Path) (a : Analysis) : Analysis :=
  {| namespaces := namespaces a; classes := classes a; interfaces := interfaces a;
     methods := methods a; using_statements := using_statements a;
     project_files := project_files a ++ [p] |}.

(** [namespace\s+([\w\.]+)] *)
Definition namespace_re : pattern :=
  [Lit "namespace"; Plus CSpace; GOpen; Plus CWordDot; GClose].
(** [.*class\s+(\w+)] *)
Definition class_re : pattern :=
  [Star CAny; Lit "class"; Plus CSpace; GOpen; Plus CWord; GClose].
(** [.*interface\s+(\w+)] *)
Definition interface_re : pattern :=
  [Star CAny; Lit "interface"; Plus CSpace; GOpen; Plus CWord; GClose].
(** [.*(public|private|protected|internal).*\s+(\w+)\s*\(] *)
Definition method_re : pattern :=
  [Star CAny; GOpen; Alt ["public"; "private"; "protected"; "internal"]; GClose;
   Star CAny; Plus CSpace; GOpen; Plus CWord; GClose; Star CSpace; Lit "("].

(** The body of the loop over the lines of one file. *)
Definition analyze_line (file_path : Path) (analysis : Analysis) (raw : string)
  : Analysis :=
  let line := strip raw in
  let a1 :=
    if startswith line "using " && negb (startswith line "using (")
    then add_using line analysis else analysis in
  let a2 :=
    match re_match false namespace_re line with
    | Some namespace_match => add_namespace (group 1 namespace_match) a1
    | None => a1
    end in
  let a3 :=
    match re_match false class_re line with
    | Some class_match => add_class (group 1 class_match) a2
    | None => a2
    end in
  let a4 :=
    match re_match false interface_re line with
    | Some interface_match => add_interface (group 1 interface_match) a3
    | None => a3
    end in
  match re_match false method_re line with
  | Some method_match =>
      if Z.of_nat (length (methods a4)) <? 100 then
        let method_name := group 2 method_match in
        if bool_decide (method_name ∉ ["if"; "for"; "while"; "switch"; "using"])
        then append_method {| name := method_name; file := file_path |} a4
        else a4
      else a4
  | None => a4
  end.

(** The state of the analysis loops: the accumulator and, as a trace of
    the effects, the files opened so far in order. *)
Definition analysis_state := (Analysis * list (Path * fileinfo))%type.

(** A file that cannot be read leaves the accumulator as it is. *)
Definition _analyze_cs_file (file_path : Path) (f : fileinfo) (st : analysis_state)
  : analysis_state :=
  match f_text f with
  | Some content =>
      (fold_left (analyze_line file_path) (split_lines content) (fst st),
       snd st ++ [(file_path, f)])
  | None => (fst st, snd st ++ [(file_path, f)])
  end.

Definition analyze_file (root_path : Path) (st : analysis_state) (f : fileinfo)
  : analysis_state :=
  let file_path := root_path ++ [f_name f] in
  let ext := lower (suffix (path_name file_path)) in
  if String.eqb ext ".cs" then _analyze_cs_file file_path f st
  else if bool_decide (ext ∈ [".csproj"; ".sln"])
  then (append_project_file file_path (fst st), snd st)
  else st.

Definition analyze_entry (st : analysis_state) (e : walk_entry) : analysis_state :=
  fold_left (analyze_file (fst e)) (snd e) st.

Definition analyze_run (fs : disk) : analysis_state :=
  fold_left analyze_entry (pruned_walk fs) (empty_analysis, []).

(** The mapping returned by [analyze_project_structure]. *)
Record ProjectStructure := {
  out_namespaces : list string;
  out_classes : list string;
  out_interfaces : list string;
  out_methods : list method;
  out_using_statements : list string;
  out_project_files : list Path
}.

Definition export (analysis : Analysis) : ProjectStructure :=
  {| out_namespaces := elements (namespaces analysis);
     out_classes := elements (classes analysis);
     out_interfaces := elements (interfaces analysis);
     out_methods := slice_to (methods analysis) 50;
     out_using_statements := elements (using_statements analysis);
     out_project_files := project_files analysis |}.

Definition analyze_project_structure (fs : disk) : ProjectStructure :=
  export (fst (analyze_run fs)).

(** *** get_file_content *)

Record FileContent := {
  fc_file : string;
  fc_total_lines : Z;
  showing_lines : Z;
  truncated : bool;
  fc_content : list string;
  raw_content : string
}.

Inductive FileReply :=
| FileOk (r : FileContent)
| FileError (error : string).

(** The components of a relative path written with [/]; empty and [.]
    components are dropped.  Paths through [..] and absolute paths are
    outside the model. *)
Fixpoint split_path (s : string) : list string :=
  match s with
  | EmptyString => [EmptyString]
  | String c s' =>
      if Ascii.eqb c "/"%char then EmptyString :: split_path s'
      else match split_path s' with
           | l :: ls => String c l :: ls
           | [] => [String c EmptyString]
           end
  end.

Definition components (s : string) : Path :=
  filter (fun c => c ≠ EmptyString ∧ c ≠ ".") (split_path s).

(** [self.code_folder_path / file_path] on the disk *)
Definition resolve (fs : disk) (file_path : string) : option node :=
  fs !! code_folder_path self ≫= find (components file_path).

(** [f"{i:4d}"]: the decimal digits, padded with blanks on the left to
    four characters. *)
Definition format_4d (i : Z) : string :=
  let digits := pretty i in
  string_of_list_ascii (replicate (4 - String.length digits) " "%char) +:+ digits.

Definition get_file_content (fs : disk) (file_path : string) (max_lines : Z) : FileReply :=
  match resolve fs file_path with
  | None => FileError ("File not found: " +:+ file_path)
  | Some (Dir _ _) => FileError "Failed to read file: is a directory"
  | Some (File f) =>
      match f_text f with
      | None => FileError "Failed to read file"
      | Some content =>
          let lines := readlines content in
          let total_lines := Z.of_nat (length lines) in
          let limited_lines := slice_to lines max_lines in
          let numbered_lines :=
            (fun '(i, line) => format_4d i +:+ ": " +:+ rstrip line)
              <$> enumerate limited_lines 1 in
          FileOk {| fc_file := file_path;
                    fc_total_lines := total_lines;
                    showing_lines := Z.of_nat (length limited_lines);
                    truncated := bool_decide (total_lines > max_lines);
                    fc_content := numbered_lines;
                    raw_content := fold_right String.append EmptyString limited_lines |}
      end
  end.

End Methods.
End Searcher.

(** ** The specification's wording of the properties *)

Module Spec.
Import Text Regex FS Searcher.

(** Two texts are the same, up to case unless the search is case sensitive. *)
Definition same_text (case_sensitive : bool) (a b : string) : Prop :=
  if case_sensitive then a = b else lower a = lower b.

(** A word boundary between [left] and [right]: exactly one of the last
    character of [left] and the first of [right] is a word character. *)
Definition word_boundary (left right : string) : Prop :=
  word_at (last (chars left)) ≠ word_at (head (chars right)).

Definition whitespace (ws : string) : Prop :=
  ws ≠ EmptyString ∧ Forall (fun c => is_space c = true) (chars ws).

Definition class_keywords : list string := ["class"; "interface"; "struct"; "enum"].

(** The class mode as the specification words it: a keyword at a word
    boundary, then whitespace, then the query, ending at a word boundary. *)
Definition class_mode_line (case_sensitive : bool) (query line : string) : Prop :=
  ∃ keyword pre kw ws q post,
    keyword ∈ class_keywords ∧
    line = pre +:+ kw +:+ ws +:+ q +:+ post ∧
    same_text case_sensitive keyword kw ∧
    word_boundary pre (kw +:+ ws +:+ q +:+ post) ∧
    whitespace ws ∧
    same_text case_sensitive query q ∧
    word_boundary (pre +:+ kw +:+ ws +:+ q) post.

(** The lines with 1-based numbers [a] through [b], in order. *)
Definition lines_numbered (lines : list string) (a b : Z) : list string :=
  omap (fun k => lines !! Z.to_nat (k - 1)) (seqZ a (b - a + 1)).

(** The files met by a traversal, each with its path from the root. *)
Definition walk_files (entries : list walk_entry) : list (Path * fileinfo) :=
  flat_map (fun e => (fun f => (e.1 ++ [f_name f], f)) <$> e.2) entries.

(** The directories above a file, below the root. *)
Definition parents (p : Path) : list string := take (length p - 1) p.

(** [fragment] occurs in [name], case-insensitively. *)
Definition icontains (fragment name : string) : Prop :=
  ∃ pre post, lower name = pre +:+ lower fragment +:+ post.

Section Config.
Variable self : CSharpCodeSearcher.

(** The file lies under a directory that a skip-fragment names. *)
Definition under_skipped (p : Path) : Prop :=
  ∃ d fragment, d ∈ parents p ∧ fragment ∈ skip_folders self ∧ icontains fragment d.

(** Admission as the specification words it: an allowed extension
    (compared lower-cased) and a size within the ceiling. *)
Definition acceptable (pf : Path * fileinfo) : Prop :=
  (∃ ext, ext ∈ file_extensions self ∧ lower (suffix (path_name pf.1)) = lower ext) ∧
  (∃ sz, st_size pf.2 = Some sz ∧ sz <= max_file_size_bytes self).

Definition included (pf : Path * fileinfo) : Prop :=
  _should_include_file self pf.1 pf.2 = true.

Global Instance included_dec pf : Decision (included pf).
Proof. unfold included. apply _. Defined.

(** The files of the pruned tree that pass [_should_include_file]. *)
Definition eligible (fs : disk) : list (Path * fileinfo) :=
  filter included (walk_files (pruned_walk self fs)).

(** The paths listed by a scan summary. *)
Definition listed (m : gmap string (list Path)) (ext : string) (p : Path) : Prop :=
  ∃ l, m !! ext = Some l ∧ p ∈ l.

Section Search.
Variables (query search_type : string) (case_sensitive : bool)
          (max_results context_lines : Z).

(** The matches found in one file; none when it cannot be read. *)
Definition file_matches (pf : Path * fileinfo) : list MatchRecord :=
  match f_text pf.2 with
  | Some content =>
      _search_in_file content pf.1 query search_type case_sensitive context_lines
  | None => []
  end.

(** The number of matches in a sequence of files. *)
Definition match_count (files : list (Path * fileinfo)) : Z :=
  Z.of_nat (length (flat_map file_matches files)).

(** The file loop of [search_code] over a flat sequence of files. *)
Fixpoint search_flat (files : list (Path * fileinfo)) (st : search_state)
  : search_state :=
  match files with
  | [] => st
  | pf :: rest =>
      if negb (_should_include_file self pf.1 pf.2) then search_flat rest st
      else
        let st1 := {| results_ := results_ st; opened := opened st ++ [pf] |} in
        match f_text pf.2 with
        | None => search_flat rest st1
        | Some content =>
            let matches := _search_in_file content pf.1 query search_type
                                           case_sensitive context_lines in
            let st2 := {| results_ := results_ st1 ++ matches; opened := opened st1 |} in
            if reached max_results (results_ st2) then st2
            else search_flat rest st2
        end
  end.
End Search.
End Config.

(** The analysis as a sequence of elementary steps on the accumulator. *)
Inductive step :=
| LineStep (file_path : Path) (raw : string)
| ProjectStep (file_path : Path).

Definition is_cs (pf : Path * fileinfo) : Prop :=
  lower (suffix (path_name pf.1)) = ".cs".

Definition is_project (pf : Path * fileinfo) : Prop :=
  lower (suffix (path_name pf.1)) ∈ [".csproj"; ".sln"].

Global Instance is_cs_dec pf : Decision (is_cs pf).
Proof. unfold is_cs. apply _. Defined.

Global Instance is_project_dec pf : Decision (is_project pf).
Proof. unfold is_project. apply _. Defined.

Definition steps_of_file (pf : Path * fileinfo) : list step :=
  if decide (is_cs pf) then
    match f_text pf.2 with
    | Some content => LineStep pf.1 <$> split_lines content
    | None => []
    end
  else if decide (is_project pf) then [ProjectStep pf.1]
  else [].

Definition apply_step (a : Analysis) (s : step) : Analysis :=
  match s with
  | LineStep file_path raw => analyze_line file_path a raw
  | ProjectStep file_path => append_project_file file_path a
  end.

Definition analysis_steps (self : CSharpCodeSearcher) (fs : disk) : list step :=
  flat_map steps_of_file (walk_files (pruned_walk self fs)).

(** No directory above the file carries the fragment in its name. *)
Definition clear_of (fragment : string) (p : Path) : Prop :=
  ∀ d, d ∈ parents p → ¬ icontains fragment d.

(** The key under which a scan lists a file: its lower-cased extension. *)
Definition key (p : Path) : string := lower (suffix (path_name p)).
End Spec.

(** ** Concrete trees for the scenarios *)

Module Scenario.
Import Text Regex FS Searcher.

Definition nl : string := String newline EmptyString.

(** A root with [src/Foo.cs] and [bin/Generated.cs], searched with the
    skip-fragment [bin]. *)
Definition foo_cs : fileinfo :=
  {| f_name := "Foo.cs"; st_size := Some 58;
     f_text := Some ("namespace App.Models" +:+ nl +:+ "{" +:+ nl +:+
                     "    public class Foo" +:+ nl +:+ "    {" +:+ nl +:+
                     "    }" +:+ nl +:+ "}" +:+ nl) |}.

Definition generated_cs : fileinfo :=
  {| f_name := "Generated.cs"; st_size := Some 9; f_text := Some "class Bar" |}.

Definition project : node :=
  Dir "proj" [Dir "src" [File foo_cs]; Dir "bin" [File generated_cs]].

Definition searcher : CSharpCodeSearcher := __init__ "/proj" (Some ["bin"]) None 10.

Definition on_disk : gmap string node := {[ "/proj" := project ]}.

(** A root with the two files of the class-mode scenario. *)
Definition iuser_cs : fileinfo :=
  {| f_name := "IUserRepository.cs"; st_size := Some 32;
     f_text := Some "public interface IUserRepository" |}.

Definition thing_cs : fileinfo :=
  {| f_name := "Thing.cs"; st_size := Some 31;
     f_text := Some "var myRepository = new Thing();" |}.

Definition repo_searcher : CSharpCodeSearcher := __init__ "/repo" None None 10.

Definition repo_disk : gmap string node :=
  {[ "/repo" := Dir "repo" [File iuser_cs; File thing_cs] ]}.

(** A searcher that allows only [.txt] files of at most four bytes, over
    a root that holds one nine-byte [.cs] file. *)
Definition big_cs : fileinfo :=
  {| f_name := "Big.cs"; st_size := Some 9; f_text := Some "class Big" |}.

Definition strict_searcher : CSharpCodeSearcher :=
  {| code_folder_path := "/big"; skip_folders := ["bin"];
     file_extensions := [".txt"]; max_file_size_bytes := 4 |}.

Definition big_disk : gmap string node := {[ "/big" := Dir "big" [File big_cs] ]}.

(** Three files with one match each, and one file with three matches. *)
Definition one_match (file_name : string) : fileinfo :=
  {| f_name := file_name; st_size := Some 8; f_text := Some "int foo;" |}.

Definition three_files_disk : gmap string node :=
  {[ "/repo" := Dir "repo" [File (one_match "A.cs"); File (one_match "B.cs");
                             File (one_match "C.cs")] ]}.

Definition log_cs : fileinfo :=
  {| f_name := "Log.cs"; st_size := Some 11;
     f_text := Some ("foo" +:+ nl +:+ "foo" +:+ nl +:+ "foo") |}.

Definition log_disk : gmap string node := {[ "/repo" := Dir "repo" [File log_cs] ]}.

(** An accumulator whose method list is full. *)
Definition full_analysis : Analysis :=
  {| namespaces := ∅; classes := ∅; interfaces := ∅;
     methods := replicate 100 {| name := "Run"; file := ["A.cs"] |};
     using_statements := ∅; project_files := [] |}.
End Scenario.

(** ** The search modes in words *)

Module Modes.
Import Text Regex FS Searcher Spec.

(** The query occurs in the line. *)
Definition occurs (case_sensitive : bool) (query line : string) : Prop :=
  ∃ pre q post, line = pre +:+ q +:+ post ∧ same_text case_sensitive query q.

Definition blanks (ws : string) : Prop :=
  Forall (fun c => is_space c = true) (chars ws).

(** The query, starting at a word boundary, followed by optional blanks and
    an opening parenthesis. *)
Definition call_site (case_sensitive : bool) (query line : string) : Prop :=
  ∃ pre q ws post,
    line = pre +:+ q +:+ ws +:+ "(" +:+ post ∧
    same_text case_sensitive query q ∧
    word_boundary pre (q +:+ ws +:+ "(" +:+ post) ∧
    blanks ws.

(** The query between two word boundaries. *)
Definition whole_word (case_sensitive : bool) (query line : string) : Prop :=
  ∃ pre q post,
    line = pre +:+ q +:+ post ∧
    same_text case_sensitive query q ∧
    word_boundary pre (q +:+ post) ∧
    word_boundary (pre +:+ q) post.

Definition type_keywords : list string :=
  ["var"; "int"; "string"; "bool"; "double"; "float"; "decimal"; "object"].

(** A type keyword, whitespace, and the query ending at a word boundary. *)
Definition typed_declaration (case_sensitive : bool) (query line : string) : Prop :=
  ∃ keyword pre kw ws q post,
    keyword ∈ type_keywords ∧
    line = pre +:+ kw +:+ ws +:+ q +:+ post ∧
    same_text case_sensitive keyword kw ∧
    whitespace ws ∧
    same_text case_sensitive query q ∧
    word_boundary (pre +:+ kw +:+ ws +:+ q) post.
End Modes.

(** ** The names that the analysis extracts *)

Module Names.
Import Text Regex FS Searcher Spec.

(** A non-empty run of word characters. *)
Definition identifier (s : string) : Prop :=
  s ≠ EmptyString ∧ Forall (fun c => is_word c = true) (chars s).

(** A non-empty run of word characters and dots. *)
Definition dotted_name (s : string) : Prop :=
  s ≠ EmptyString ∧ Forall (fun c => in_class CWordDot c = true) (chars s).

Definition control_words : list string := ["if"; "for"; "while"; "switch"; "using"].

(** A pattern item other than a group parenthesis. *)
Definition plain (it : item) : Prop :=
  match it with GOpen | GClose => False | _ => True end.

(** The names held by the accumulator are well formed. *)
Definition well_named (a : Analysis) : Prop :=
  (forall x, x ∈ namespaces a -> dotted_name x) /\
  (forall x, x ∈ classes a -> identifier x) /\
  (forall x, x ∈ interfaces a -> identifier x) /\
  (forall m, m ∈ methods a -> identifier (name m) /\ name m ∉ control_words) /\
  (forall x, x ∈ using_statements a ->
     startswith x "using " = true /\ startswith x "using (" = false).
End Names.

(** ** The whole tree and the tallies of a scan *)

Module Tree.
Import Text Regex FS Searcher Spec.

(** The unpruned traversal: every directory of the tree with its files. *)
Definition tree_walk (top : option node) : list walk_entry :=
  walk_root (fun _ => true) top.

(** Every file of the tree, with its path from the root. *)
Definition tree_files (top : option node) : list (Path * fileinfo) :=
  walk_files (tree_walk top).

(** No component of the path carries a skip-fragment of the searcher. *)
Definition unskipped (self : CSharpCodeSearcher) (q : list string) : Prop :=
  ∀ d fragment, d ∈ q → fragment ∈ skip_folders self → ¬ icontains fragment d.

(** The number of paths listed by a scan summary. *)
Definition listed_count (m : gmap string (list Path)) : Z :=
  map_fold (fun _ l n => Z.of_nat (length l) + n) 0 m.

(** The counter is the number of listed paths, and no list is empty. *)
Definition tallied (st : gmap string (list Path) * Z) : Prop :=
  st.2 = listed_count st.1 /\ forall ext l, st.1 !! ext = Some l -> l ≠ [].

(** The texts read from a sequence of opened files. *)
Definition texts (l : list (Path * fileinfo)) : list string :=
  omap (fun pf => f_text pf.2) l.
End Tree.

(** ** Joining lines *)

Module Content.
(** [''.join] *)
Definition join (l : list string) : string := fold_right String.append EmptyString l.
End Content.

(** ** The tool entry point *)

Module Tool.
Import Text Regex FS Searcher.

(** The keyword arguments of [execute_code_search] that it reads, typed as
    the tool schema declares them; a key that is absent is [None]. *)
Record kwargs := {
  kw_action : option string;
  kw_query : option string;
  kw_search_type : option string;
  kw_max_results : option Z;
  kw_case_sensitive : option bool
}.

(** The value handed to [json.dumps]: the result of the operation that was
    run, or the mapping with an [error] key built by the dispatcher. *)
Inductive ToolReply :=
| ScanReply (r : ScanResult)
| AnalyzeReply (r : ProjectStructure)
| SearchReplyOf (r : SearchReply)
| FileReplyOf (r : FileReply)
| ErrorReply (error : string).

Definition execute_code_search (searcher : CSharpCodeSearcher) (fs : disk) (kw : kwargs)
  : ToolReply :=
  let action := default "search" (kw_action kw) in
  if String.eqb action "scan" then
    match scan_codebase searcher fs with
    | Returned result => ScanReply result
    | Raised (FileNotFoundError e) => ErrorReply ("Code search failed: " +:+ e)
    end
  else if String.eqb action "analyze" then
    AnalyzeReply (analyze_project_structure searcher fs)
  else if String.eqb action "search" then
    let query := default "" (kw_query kw) in
    if String.eqb query "" then ErrorReply "Query is required for search action"
    else
      SearchReplyOf
        (search_code searcher fs query
                     (default "content" (kw_search_type kw))
                     (default false (kw_case_sensitive kw))
                     (default 20 (kw_max_results kw))
                     3)
  else if String.eqb action "get_file" then
    let file_path := default "" (kw_query kw) in
    if String.eqb file_path "" then ErrorReply "File path is required for get_file action"
    else FileReplyOf (get_file_content searcher fs file_path 100)
  else ErrorReply ("Unknown action: " +:+ action).

(** The [error] key of the rendered reply, if it has one. *)
Definition reply_error (reply : ToolReply) : option string :=
  match reply with
  | ErrorReply e => Some e
  | FileReplyOf (FileError e) => Some e
  | SearchReplyOf (SearchError e) => Some e
  | _ => None
  end.

Definition actions : list string := ["scan"; "analyze"; "search"; "get_file"].

(** A path that [code_folder_path / file_path] keeps below the root as
    written: not absolute, and without a [..] component. *)
Definition relative (file_path : string) : Prop :=
  startswith file_path "/" = false /\ ".." ∉ split_path file_path.
End Tool.

(** ** Further concrete trees *)

Module Samples.
Import Text Regex FS Searcher.

(** A root with [Svc.cs] beside [src/Foo.cs]. *)
Definition svc_cs : fileinfo :=
  {| f_name := "Svc.cs"; st_size := Some 35;
     f_text := Some ("using System;" +:+ Scenario.nl +:+ "public int Get(int x)") |}.

Definition svc_disk : gmap string node :=
  {[ "/svc" := Dir "svc" [File svc_cs; Dir "src" [File Scenario.foo_cs]] ]}.

(** A searcher constructed with an empty skip list. *)
Definition svc_searcher : CSharpCodeSearcher := __init__ "/svc" (Some []) None 10.

(** A searcher whose only skip-fragment is the empty string. *)
Definition flat_searcher : CSharpCodeSearcher :=
  {| code_folder_path := "/svc"; skip_folders := [""];
     file_extensions := [".cs"]; max_file_size_bytes := 100 |}.
End Samples.

(** * Properties *)

(** ** The matcher against the declarative semantics *)

Module RegexFacts.
Import Text Regex.

Lemma eat_spec ci w : forall before s b' s',
  eat ci w before s = Some (b', s') <->
  exists w', s = w' ++ s' /\ b' = rev w' ++ before /\
             Forall2 (fun a c => ch_eq ci a c = true) w w'.
Proof.
  induction w as [|a w IH]; intros before s b' s'; simpl.
  - split.
    + intros [= <- <-]. exists []. split_and!; [done | done | constructor].
    + intros (w' & -> & -> & Hw). by inversion Hw.
  - destruct s as [|c s].
    + split; [done|]. intros (w' & Hs & _ & Hw). inversion Hw; subst. done.
    + destruct (ch_eq ci a c) eqn:E.
      * rewrite IH. split.
        -- intros (w' & -> & -> & Hw). exists (c :: w'). simpl.
           rewrite <- app_assoc. split_and!; [done | done | by constructor].
        -- intros (w' & Hs & -> & Hw). inversion Hw as [|? c' ? w'' Hc Hw']; subst.
           simpl in Hs. injection Hs as -> ->. exists w''. simpl.
           rewrite <- app_assoc. done.
      * split; [done|]. intros (w' & Hs & _ & Hw).
        inversion Hw as [|? c' ? w'' Hc Hw']; subst. simpl in Hs.
        injection Hs as -> ->. congruence.
Qed.

Section Loops.
Context {R : Type} (cont : list ascii -> list ascii -> option R).

Lemma star_loop_Some k : forall s before,
  is_Some (star_loop k cont before s) <->
  exists taken s', s = taken ++ s' /\
    Forall (fun c => in_class k c = true) taken /\
    is_Some (cont (rev taken ++ before) s').
Proof.
  induction s as [|c s IH]; intros before; simpl.
  - split.
    + intros H. exists [], []. split_and!; [done | constructor | done].
    + intros (taken & s' & Hs & _ & H). symmetry in Hs.
      apply app_eq_nil in Hs as [-> ->]. done.
  - destruct (in_class k c) eqn:E.
    + split.
      * destruct (star_loop k cont (c :: before) s) eqn:Hl.
        -- intros _. destruct (proj1 (IH (c :: before))) as (taken & s' & -> & Ht & H).
           { rewrite Hl. by eexists. }
           exists (c :: taken), s'. simpl. rewrite <- app_assoc.
           split_and!; [done | by constructor | done].
        -- intros H. exists [], (c :: s). split_and!; [done | constructor | done].
      * intros (taken & s' & Hs & Ht & H).
        destruct taken as [|c' taken].
        -- simpl in *. subst s'. destruct (star_loop k cont (c :: before) s); [by eexists | done].
        -- simpl in Hs. injection Hs as <- ->.
           inversion Ht; subst.
           assert (is_Some (star_loop k cont (c :: before) (taken ++ s'))) as [r ->].
           { apply IH. exists taken, s'. simpl in H. rewrite <- app_assoc in H. done. }
           by eexists.
    + split.
      * intros H. exists [], (c :: s). split_and!; [done | constructor | done].
      * intros (taken & s' & Hs & Ht & H).
        destruct taken as [|c' taken]; simpl in *; [by subst|].
        injection Hs as <- ->. inversion Ht; subst. congruence.
Qed.

Lemma alt_loop_Some ci before s : forall ws,
  is_Some (alt_loop ci cont before s ws) <->
  exists w b' s', w ∈ ws /\ eat ci (chars w) before s = Some (b', s') /\
                  is_Some (cont b' s').
Proof.
  induction ws as [|w ws IH]; simpl.
  - split; [by intros [? ?]|]. intros (w & ? & ? & Hw & _). by apply elem_of_nil in Hw.
  - split.
    + destruct (eat ci (chars w) before s) as [[b' s']|] eqn:He.
      * destruct (cont b' s') eqn:Hc.
        -- intros _. exists w, b', s'. rewrite Hc. split_and!; [left | done | by eexists].
        -- intros H. apply IH in H as (w0 & b0 & s0 & Hin & H1 & H2).
           exists w0, b0, s0. split_and!; [by right | done | done].
      * intros H. apply IH in H as (w0 & b0 & s0 & Hin & H1 & H2).
        exists w0, b0, s0. split_and!; [by right | done | done].
    + intros (w0 & b0 & s0 & Hin & H1 & H2).
      apply elem_of_cons in Hin as [-> | Hin].
      * rewrite H1. destruct (cont b0 s0); [by eexists | by destruct H2].
      * assert (is_Some (alt_loop ci cont before s ws)) as Hr by (apply IH; eauto 10).
        destruct (eat ci (chars w) before s) as [[b' s']|]; [|done].
        destruct (cont b' s'); [by eexists | done].
Qed.
End Loops.

(** The matcher finds a match exactly when the declarative semantics has one. *)
Theorem run_Some ci p : forall mark caps before s,
  is_Some (run ci p mark caps before s) <-> Matches ci p before s.
Proof.
  induction p as [|it r IH]; intros mark caps before s.
  - simpl. split; [constructor | by eexists].
  - destruct it; simpl.
    + destruct (eat ci (chars w) before s) as [[b' s']|] eqn:He.
      * rewrite IH. split; [by econstructor|].
        inversion 1; subst. congruence.
      * split; [by intros [? ?]|]. inversion 1; congruence.
    + rewrite alt_loop_Some. split.
      * intros (w & b' & s' & Hin & He & H). apply IH in H. by econstructor.
      * inversion 1; subst. eexists _, _, _. rewrite IH. eauto.
    + rewrite star_loop_Some. split.
      * intros (taken & s' & -> & Ht & H). apply IH in H. by constructor.
      * inversion 1; subst. eexists _, _. rewrite IH. eauto.
    + split.
      * destruct s as [|c s]; [by intros [? ?]|].
        destruct (in_class k c) eqn:E; [|by intros [? ?]].
        rewrite star_loop_Some. intros (taken & s' & -> & Ht & H). apply IH in H.
        change (c :: taken ++ s') with ((c :: taken) ++ s').
        constructor; [done | by constructor |]. simpl. by rewrite <- app_assoc.
      * inversion 1 as [| | | |? ? ? taken s' Hne Ht Hm| | |]; subst.
        destruct taken as [|c taken]; [done|]. simpl.
        inversion Ht; subst. rewrite H2.
        rewrite star_loop_Some. exists taken, s'. rewrite IH.
        simpl in Hm. rewrite <- app_assoc in Hm. done.
    + destruct (at_boundary before s) eqn:E.
      * rewrite IH. split; [by constructor | by inversion 1].
      * split; [by intros [? ?] | inversion 1; congruence].
    + rewrite IH. split; [by constructor | by inversion 1].
    + rewrite IH. split; [by constructor | by inversion 1].
Qed.

Lemma search_from_Some ci p : forall s before,
  is_Some (search_from ci p before s) <->
  exists pre rest, s = pre ++ rest /\ Matches ci p (rev pre ++ before) rest.
Proof.
  induction s as [|c s IH]; intros before; simpl.
  - destruct (run ci p 0 [] before []) eqn:Hr.
    + split; [|by eexists]. intros _. exists [], []. split; [done|].
      apply (run_Some ci p 0%nat [] before []). rewrite Hr. by eexists.
    + split; [by intros [? ?]|]. intros (pre & rest & Hs & Hm).
      symmetry in Hs. apply app_eq_nil in Hs as [-> ->]. simpl in Hm.
      apply (run_Some ci p 0%nat []) in Hm. rewrite Hr in Hm. by destruct Hm.
  - destruct (run ci p 0 [] before (c :: s)) eqn:Hr.
    + split; [|by eexists]. intros _. exists [], (c :: s). split; [done|]. simpl.
      apply (run_Some ci p 0%nat []). rewrite Hr. by eexists.
    + rewrite IH. split.
      * intros (pre & rest & -> & Hm). exists (c :: pre), rest. simpl.
        rewrite <- app_assoc. done.
      * intros (pre & rest & Hs & Hm). destruct pre as [|c' pre].
        -- simpl in *. subst rest. apply (run_Some ci p 0%nat []) in Hm.
           rewrite Hr in Hm. by destruct Hm.
        -- simpl in Hs. injection Hs as <- ->. exists pre, rest.
           simpl in Hm. rewrite <- app_assoc in Hm. done.
Qed.

End RegexFacts.

(** ** The class mode *)

Module ClassMode.
Import Text Regex FS Searcher Spec RegexFacts.

Lemma app_cons c a b : String c a +:+ b = String c (a +:+ b).
Proof. reflexivity. Qed.

Lemma chars_app a b : chars (a +:+ b) = chars a ++ chars b.
Proof.
  induction a as [|c a IH]; [done|].
  rewrite app_cons. simpl. by rewrite <- IH.
Qed.

Lemma text_app a b : text (a ++ b) = text a +:+ text b.
Proof.
  induction a as [|c a IH]; [done|].
  simpl. by rewrite app_cons, <- IH.
Qed.

Lemma text_chars s : text (chars s) = s.
Proof. apply string_of_list_ascii_of_string. Qed.

Lemma chars_text l : chars (text l) = l.
Proof. apply list_ascii_of_string_of_list_ascii. Qed.

Lemma ch_eq_same ci w : forall w',
  Forall2 (fun a c => ch_eq ci a c = true) (chars w) w' <->
  same_text (negb ci) w (text w').
Proof.
  unfold same_text. induction w as [|a w IH]; intros w'; simpl.
  - split.
    + inversion 1. by destruct ci.
    + destruct w'; [constructor|]. by destruct ci.
  - destruct w' as [|c w'].
    + split; [inversion 1 | by destruct ci].
    + split.
      * inversion 1 as [|? ? ? ? Hc Hr]; subst. apply IH in Hr.
        unfold ch_eq in Hc. destruct ci; simpl in *.
        -- apply Ascii.eqb_eq in Hc. by rewrite Hc, Hr.
        -- apply Ascii.eqb_eq in Hc. by rewrite Hc, Hr.
      * intros H. constructor.
        -- unfold ch_eq. destruct ci; simpl in *; apply Ascii.eqb_eq; congruence.
        -- apply IH. destruct ci; simpl in *; congruence.
Qed.

Lemma head_rev {A} (l : list A) : head (rev l) = last l.
Proof.
  induction l as [|x l IH] using rev_ind; [done|].
  by rewrite rev_unit, last_snoc.
Qed.

Lemma at_boundary_iff pre s :
  at_boundary (rev pre ++ []) s = true <-> word_at (last pre) ≠ word_at (head s).
Proof.
  unfold at_boundary. rewrite app_nil_r, head_rev.
  destruct (word_at (last pre)), (word_at (head s)); simpl; split; congruence.
Qed.

(** One alternative of the class mode, read declaratively. *)
Lemma keyword_pattern ci keyword query pre rest :
  Matches ci [WordB; Lit keyword; Plus CSpace; Lit query; WordB] (rev pre ++ []) rest <->
  exists kw ws q post,
    rest = kw ++ ws ++ q ++ post /\
    Forall2 (fun a c => ch_eq ci a c = true) (chars keyword) kw /\
    ws ≠ [] /\ Forall (fun c => is_space c = true) ws /\
    Forall2 (fun a c => ch_eq ci a c = true) (chars query) q /\
    word_at (last pre) ≠ word_at (head rest) /\
    word_at (last (pre ++ kw ++ ws ++ q)) ≠ word_at (head post).
Proof.
  split.
  - inversion 1 as [| | | | |? ? ? Hb H1| |]; subst.
    inversion H1 as [|? ? ? ? b2 s2 He2 H2| | | | | |]; subst.
    apply eat_spec in He2 as (kw & -> & -> & Hkw).
    inversion H2 as [| | | |? ? ? ws s3 Hne Hws H3| | |]; subst.
    inversion H3 as [|? ? ? ? b4 s4 He4 H4| | | | | |]; subst.
    apply eat_spec in He4 as (q & -> & -> & Hq).
    inversion H4 as [| | | | |? ? ? Hb4 _| |]; subst.
    exists kw, ws, q, s4. split_and!; try done.
    + by apply at_boundary_iff.
    + apply at_boundary_iff. rewrite !rev_app_distr, <- !app_assoc. done.
  - intros (kw & ws & q & post & -> & Hkw & Hne & Hws & Hq & Hb1 & Hb2).
    apply M_wordb; [by apply at_boundary_iff|].
    eapply M_lit; [apply eat_spec; eauto|].
    apply M_plus; [done..|].
    eapply M_lit; [apply eat_spec; eauto|].
    apply M_wordb; [|constructor].
    apply at_boundary_iff in Hb2. rewrite !rev_app_distr, <- !app_assoc in Hb2. done.
Qed.

Lemma keyword_search cs keyword query line :
  is_Some (re_search (negb cs)
             [WordB; Lit keyword; Plus CSpace; Lit query; WordB] line) <->
  ∃ pre kw ws q post,
    line = pre +:+ kw +:+ ws +:+ q +:+ post ∧
    same_text cs keyword kw ∧
    word_boundary pre (kw +:+ ws +:+ q +:+ post) ∧
    whitespace ws ∧
    same_text cs query q ∧
    word_boundary (pre +:+ kw +:+ ws +:+ q) post.
Proof.
  unfold re_search. rewrite search_from_Some. split.
  - intros (pre & rest & Hl & Hm).
    apply keyword_pattern in Hm as (kw & ws & q & post & -> & Hkw & Hne & Hws & Hq & Hb1 & Hb2).
    exists (text pre), (text kw), (text ws), (text q), (text post).
    apply ch_eq_same in Hkw, Hq. rewrite negb_involutive in Hkw, Hq.
    unfold word_boundary, whitespace.
    rewrite <- !text_app, !chars_text.
    split_and!; try done.
    + by rewrite <- Hl, text_chars.
    + by destruct ws.
  - intros (pre & kw & ws & q & post & -> & Hkw & Hb1 & [Hne Hws] & Hq & Hb2).
    exists (chars pre), (chars (kw +:+ ws +:+ q +:+ post)). split; [by rewrite chars_app|].
    apply keyword_pattern. exists (chars kw), (chars ws), (chars q), (chars post).
    unfold word_boundary in *. rewrite !chars_app in *.
    split_and!; try done.
    + apply ch_eq_same. by rewrite negb_involutive, text_chars.
    + by destruct ws.
    + apply ch_eq_same. by rewrite negb_involutive, text_chars.
Qed.

(** The class mode of the code is the class mode of the specification. *)
Lemma class_mode_matches cs query line :
  line_matches (_get_search_patterns query "class") cs line = true <->
  class_mode_line cs query line.
Proof.
  unfold line_matches, class_mode_line, class_keywords.
  change (_get_search_patterns query "class") with
    [ [WordB; Lit "class"; Plus CSpace; Lit query; WordB];
      [WordB; Lit "interface"; Plus CSpace; Lit query; WordB];
      [WordB; Lit "struct"; Plus CSpace; Lit query; WordB];
      [WordB; Lit "enum"; Plus CSpace; Lit query; WordB] ].
  cbn [existsb].
  rewrite !orb_true_iff, !bool_decide_eq_true, !keyword_search. split.
  - intros [H|[H|[H|[H|H]]]]; [..|done];
      destruct H as (pre & kw & ws & q & post & H);
      eexists _, pre, kw, ws, q, post; (split; [|exact H]); repeat constructor.
  - intros (keyword & pre & kw & ws & q & post & Hin & H).
    repeat (apply elem_of_cons in Hin as [->|Hin]);
      [ left | right; left | right; right; left | right; right; right; left
      | by apply elem_of_nil in Hin ];
      by exists pre, kw, ws, q, post.
Qed.
End ClassMode.

(** ** Text, slices and the search of one file *)

Module TextFacts.
Import Text Spec ClassMode.

Lemma startswith_spec p : forall s,
  startswith s p = true <-> exists post, s = p +:+ post.
Proof.
  induction p as [|a p IH]; intros s; simpl.
  - split; [intros _; by exists s | done].
  - destruct s as [|c s].
    + split; [done | by intros [post H]].
    + destruct (Ascii.eqb_spec a c) as [->|Hne].
      * rewrite IH. split; intros [post H]; exists post.
        -- by rewrite app_cons, <- H.
        -- rewrite app_cons in H. congruence.
      * split; [done|]. intros [post H]. rewrite app_cons in H. congruence.
Qed.

(** [contains] is the substring test. *)
Lemma contains_spec sub : forall s,
  contains sub s = true <-> exists pre post, s = pre +:+ sub +:+ post.
Proof.
  induction s as [|c s IH]; simpl.
  - rewrite orb_false_r, startswith_spec. split.
    + intros [post H]. by exists EmptyString, post.
    + intros (pre & post & H). destruct pre; [by exists post|]. by rewrite app_cons in H.
  - rewrite orb_true_iff, startswith_spec, IH. split.
    + intros [[post H]|(pre & post & H)].
      * by exists EmptyString, post.
      * exists (String c pre), post. by rewrite app_cons, <- H.
    + intros (pre & post & H). destruct pre as [|c' pre].
      * left. by exists post.
      * right. rewrite app_cons in H. injection H as -> ->. by exists pre, post.
Qed.

Lemma split_lines_nonempty s : split_lines s ≠ [].
Proof.
  destruct s as [|c s]; simpl; [done|].
  destruct (Ascii.eqb c newline); [done|]. by destruct (split_lines s).
Qed.

Lemma clamp_in_range len i : 0 <= i <= len -> clamp_index len i = i.
Proof. unfold clamp_index. intros H. destruct (Z.ltb_spec i 0); lia. Qed.

Lemma slice_in_range {A} (l : list A) (a b : nat) :
  (a <= b <= length l)%nat ->
  slice l (Z.of_nat a) (Z.of_nat b) = take (b - a) (drop a l).
Proof.
  intros H. unfold slice. rewrite !clamp_in_range by lia.
  f_equal; [lia|]. f_equal. lia.
Qed.

Lemma slice_to_length {A} (l : list A) (b : Z) :
  0 <= b -> Z.of_nat (length (slice_to l b)) <= b.
Proof.
  intros Hb. unfold slice_to, slice, clamp_index.
  rewrite length_take. destruct (Z.ltb_spec b 0), (Z.ltb_spec 0 0); lia.
Qed.

Lemma slice_to_all {A} (l : list A) (b : Z) :
  Z.of_nat (length l) <= b -> slice_to l b = l.
Proof.
  intros Hb. unfold slice_to, slice, clamp_index.
  destruct (Z.ltb_spec b 0), (Z.ltb_spec 0 0); try lia.
  replace (Z.to_nat (0 `min` Z.of_nat (length l))) with 0%nat by lia.
  rewrite drop_0. apply take_ge. lia.
Qed.

Lemma slice_to_nil {A} (b : Z) : slice_to (@nil A) b = [].
Proof. unfold slice_to, slice. by rewrite drop_nil, take_nil. Qed.

Lemma lines_numbered_take (lines : list string) (n a : nat) :
  (a + n <= length lines)%nat ->
  lines_numbered lines (Z.of_nat a + 1) (Z.of_nat a + Z.of_nat n) = take n (drop a lines).
Proof.
  unfold lines_numbered.
  replace (Z.of_nat a + Z.of_nat n - (Z.of_nat a + 1) + 1) with (Z.of_nat n) by lia.
  revert a. induction n as [|n IH]; intros a Ha.
  - by rewrite take_0.
  - rewrite seqZ_cons by lia. simpl.
    replace (Z.to_nat (Z.of_nat a + 1 - 1)) with a by lia.
    destruct (lookup_lt_is_Some_2 lines a) as [x Hx]; [lia|].
    rewrite Hx. rewrite (drop_S _ _ _ Hx). simpl. f_equal.
    replace (Z.succ (Z.of_nat a + 1)) with (Z.of_nat (S a) + 1) by lia.
    replace (Z.pred (Z.of_nat (S n))) with (Z.of_nat n) by lia.
    apply IH. lia.
Qed.
End TextFacts.

Module SearchFacts.
Import Text Regex FS Searcher Spec TextFacts.

Lemma elem_of_enumerate {A} (l : list A) : forall start i x,
  (i, x) ∈ enumerate l start <-> exists k : nat, l !! k = Some x /\ i = start + Z.of_nat k.
Proof.
  induction l as [|y l IH]; intros start i x; simpl.
  - split; [by intros ?%elem_of_nil | by intros (k & ? & _)].
  - rewrite elem_of_cons, IH. split.
    + intros [[= -> ->]|(k & Hk & ->)].
      * exists 0%nat. split; [done | lia].
      * exists (S k). split; [done | lia].
    + intros ([|k] & Hk & ->).
      * left. simpl in Hk. injection Hk as ->. f_equal. lia.
      * right. exists k. split; [done | lia].
Qed.

Section File.
Variables (self : CSharpCodeSearcher).
Variables (content : string) (file_path : Path) (query search_type : string)
          (case_sensitive : bool) (context_lines : Z).

Let lines := split_lines content.

(** The records of the line-oriented modes: one per matching line. *)
Lemma search_in_file_lines m :
  search_type ∈ ["content"; "class"; "method"; "variable"] ->
  m ∈ _search_in_file content file_path query search_type case_sensitive context_lines <->
  exists (k : nat) line,
    lines !! k = Some line /\
    line_matches (_get_search_patterns query search_type) case_sensitive line = true /\
    m = {| file_ := file_path; type_ := search_type;
           line_number := 1 + Z.of_nat k; match_ := strip line;
           context := Some (slice lines (Z.max 0 (1 + Z.of_nat k - 1 - context_lines))
                                  (Z.min (Z.of_nat (length lines))
                                         (1 + Z.of_nat k + context_lines)));
           context_start_line := Some (Z.max 0 (1 + Z.of_nat k - 1 - context_lines) + 1) |}.
Proof.
  intros Hmode. unfold _search_in_file.
  assert (String.eqb search_type "filename" = false) as ->.
  { apply String.eqb_neq. intros ->.
    repeat (apply elem_of_cons in Hmode as [Hmode|Hmode]; [done|]).
    by apply elem_of_nil in Hmode. }
  rewrite bool_decide_eq_true_2 by done.
  rewrite list_elem_of_In, in_flat_map. fold lines. split.
  - intros ([i line] & Hin & Hm). apply list_elem_of_In, elem_of_enumerate in Hin.
    destruct Hin as (k & Hk & ->). exists k, line.
    destruct (line_matches _ _ line); [|by destruct Hm].
    destruct Hm as [<-|[]]. done.
  - intros (k & line & Hk & Hl & ->). exists (1 + Z.of_nat k, line). split.
    + apply list_elem_of_In, elem_of_enumerate. eauto.
    + rewrite Hl. by left.
Qed.

Lemma search_in_file_filename m :
  search_type = "filename" ->
  m ∈ _search_in_file content file_path query search_type case_sensitive context_lines ->
  line_number m = 0 /\ file_ m = file_path.
Proof.
  intros ->. unfold _search_in_file. simpl String.eqb. cbv iota.
  destruct (_ || _); [|by intros ?%elem_of_nil].
  intros ->%list_elem_of_singleton. done.
Qed.

Lemma search_in_file_other :
  search_type ∉ ["content"; "filename"; "class"; "method"; "variable"] ->
  _search_in_file content file_path query search_type case_sensitive context_lines = [].
Proof.
  intros Hmode. unfold _search_in_file.
  assert (String.eqb search_type "filename" = false) as ->.
  { apply String.eqb_neq. intros ->. apply Hmode. by repeat constructor. }
  rewrite bool_decide_eq_false_2; [done|].
  intros H. apply Hmode.
  repeat (apply elem_of_cons in H as [->|H]; [by repeat constructor|]).
  by apply elem_of_nil in H.
Qed.

Lemma search_in_file_path m :
  m ∈ _search_in_file content file_path query search_type case_sensitive context_lines ->
  file_ m = file_path.
Proof.
  intros Hm.
  destruct (decide (search_type = "filename")) as [E|E];
    [by eapply search_in_file_filename|].
  destruct (decide (search_type ∈ ["content"; "class"; "method"; "variable"])) as [I|I].
  - apply search_in_file_lines in Hm as (k & line & _ & _ & ->); done.
  - rewrite search_in_file_other in Hm; [by apply elem_of_nil in Hm|].
    intros H. repeat (apply elem_of_cons in H as [->|H]; [done || (apply I; by repeat constructor)|]).
    by apply elem_of_nil in H.
Qed.
End File.

(** C6: for a match at the 1-based line [i] of a file of [L] lines,
    searched with a non-negative context parameter [c], the context of
    the record is the lines numbered [max 1 (i - c)] through
    [min L (i + c)], in order, and [context_start_line] is
    [max 1 (i - c)]. *)
Theorem context_window content file_path query search_type case_sensitive c m :
  0 <= c ->
  m ∈ _search_in_file content file_path query search_type case_sensitive c ->
  1 <= line_number m ->
  let lines := split_lines content in
  let L := Z.of_nat (length lines) in
  let i := line_number m in
  i <= L /\
  context m = Some (lines_numbered lines (Z.max 1 (i - c)) (Z.min L (i + c))) /\
  context_start_line m = Some (Z.max 1 (i - c)).
Proof.
  intros Hc Hm Hi lines L i.
  destruct (decide (search_type = "filename")) as [E|E].
  { eapply search_in_file_filename in Hm as [H0 _]; [lia | done]. }
  destruct (decide (search_type ∈ ["content"; "class"; "method"; "variable"])) as [I|I].
  - apply search_in_file_lines in Hm as (k & line & Hk & _ & ->); [|done].
    subst i. simpl in *. fold lines. fold L.
    pose proof (lookup_lt_Some _ _ _ Hk) as Hlt. fold lines in Hlt.
    split_and!; [lia | | f_equal; lia].
    f_equal.
    set (a := Z.to_nat (Z.max 0 (1 + Z.of_nat k - 1 - c))).
    set (b := Z.to_nat (Z.min L (1 + Z.of_nat k + c))).
    replace (Z.max 0 (1 + Z.of_nat k - 1 - c)) with (Z.of_nat a) by lia.
    replace (Z.min L (1 + Z.of_nat k + c)) with (Z.of_nat b) at 1 by lia.
    rewrite slice_in_range by lia.
    replace (Z.max 1 (1 + Z.of_nat k - c)) with (Z.of_nat a + 1) by lia.
    replace (Z.min L (1 + Z.of_nat k + c)) with (Z.of_nat a + Z.of_nat (b - a)) by lia.
    symmetry. apply lines_numbered_take. lia.
  - rewrite search_in_file_other in Hm; [by apply elem_of_nil in Hm|].
    intros H. repeat (apply elem_of_cons in H as [->|H]; [done || (apply I; by repeat constructor)|]).
    by apply elem_of_nil in H.
Qed.
End SearchFacts.

(** ** The traversal and the three loops *)

Module WalkFacts.
Import Text Regex FS Searcher Spec TextFacts.

Lemma path_name_snoc (p : Path) d : path_name (p ++ [d]) = d.
Proof. unfold path_name. by rewrite last_snoc. Qed.

Lemma parents_snoc (p : Path) d : parents (p ++ [d]) = p.
Proof.
  unfold parents. rewrite length_app. simpl.
  replace (length p + 1 - 1)%nat with (length p) by lia.
  by rewrite take_app_length.
Qed.

Lemma walk_files_cons e l : walk_files (e :: l) = walk_files [e] ++ walk_files l.
Proof. unfold walk_files. simpl. by rewrite app_nil_r. Qed.

(** Every directory reached by the traversal was kept at each level. *)
Lemma walk_kept keep n : forall rp q fl,
  (q, fl) ∈ walk keep rp n ->
  exists ds, q = rp ++ ds /\
    forall k, (k < length ds)%nat -> keep (rp ++ take (S k) ds) = true.
Proof.
  induction n as [f|name children IH] using node_ind; intros rp q fl; simpl.
  - by intros ?%elem_of_nil.
  - rewrite elem_of_cons. intros [[= -> ->]|Hin].
    + exists []. rewrite app_nil_r. split; [done|]. simpl. lia.
    + apply list_elem_of_In, in_flat_map in Hin as (ch & Hch & Hin).
      apply list_elem_of_In in Hch, Hin.
      destruct ch as [f|d sub]; [by apply elem_of_nil in Hin|].
      destruct (keep (rp ++ [d])) eqn:Hk; [|by apply elem_of_nil in Hin].
      rewrite Forall_forall in IH.
      destruct (IH _ Hch _ _ _ Hin) as (ds & -> & Hds).
      exists (d :: ds). rewrite <- app_assoc. split; [done|].
      intros [|k] Hlt; simpl.
      * by rewrite take_0.
      * specialize (Hds k). rewrite <- app_assoc in Hds. apply Hds. simpl in Hlt. lia.
Qed.

Section Config.
Variable self : CSharpCodeSearcher.

Lemma skip_folder_spec (p : Path) :
  _should_skip_folder self p = true <->
  exists fragment, fragment ∈ skip_folders self /\ icontains fragment (path_name p).
Proof.
  unfold _should_skip_folder, icontains. rewrite existsb_exists. split.
  - intros (x & Hx & Hc). exists x. split; [by apply list_elem_of_In|].
    by apply contains_spec.
  - intros (x & Hx & Hc). exists x. split; [by apply list_elem_of_In|].
    by apply contains_spec.
Qed.

(** No file of the pruned traversal lies under a skipped directory. *)
Lemma pruned_walk_clean fs pf :
  pf ∈ walk_files (pruned_walk self fs) -> ~ under_skipped self pf.1.
Proof.
  unfold walk_files, pruned_walk, walk_root.
  intros Hin (d & fragment & Hd & Hf & Hc).
  apply list_elem_of_In, in_flat_map in Hin as ([q fl] & He & Hin).
  apply list_elem_of_In in He, Hin. simpl in Hin.
  apply list_elem_of_fmap in Hin as (f & -> & Hfl). simpl in Hd.
  rewrite parents_snoc in Hd.
  destruct (fs !! code_folder_path self) as [n|]; [|by apply elem_of_nil in He].
  apply walk_kept in He as (ds & -> & Hds). simpl in Hd.
  apply list_elem_of_lookup in Hd as [k Hk].
  specialize (Hds k (lookup_lt_Some _ _ _ Hk)). simpl in Hds.
  apply negb_true_iff, not_true_iff_false in Hds. apply Hds.
  apply skip_folder_spec. exists fragment. split; [done|].
  rewrite (take_S_r _ _ _ Hk), path_name_snoc. done.
Qed.

(** [_should_include_file] decides admission. *)
Lemma include_spec pf : included self pf <-> acceptable self pf.
Proof.
  unfold included, acceptable, _should_include_file.
  destruct (existsb _ _) eqn:He; simpl.
  - apply existsb_exists in He as (ext & Hext & Heq).
    apply list_elem_of_In in Hext. apply String.eqb_eq in Heq.
    destruct (st_size pf.2) as [sz|].
    + destruct (Z.gtb_spec sz (max_file_size_bytes self)).
      * split; [done|]. intros (_ & sz' & [= <-] & Hle). lia.
      * split; [|done]. intros _. split; [by exists ext | exists sz; split; [done | lia]].
    + split; [done|]. by intros (_ & sz' & ? & _).
  - split; [done|]. intros ((ext & Hext & Heq) & _).
    exfalso. apply not_true_iff_false in He. apply He, existsb_exists.
    exists ext. split; [by apply list_elem_of_In | by apply String.eqb_eq].
Qed.
End Config.
End WalkFacts.

Module ScanFacts.
Import Text Regex FS Searcher Spec TextFacts WalkFacts.

Section Config.
Variable self : CSharpCodeSearcher.

Lemma scan_file_spec rp st f :
  let pf := (rp ++ [f_name f], f) in
  let st' := scan_file self rp st f in
  (forall ext p, listed st'.1 ext p <->
                 listed st.1 ext p \/ (included self pf /\ p = pf.1 /\ ext = key p)) /\
  st'.2 = st.2 + Z.of_nat (length (filter (included self) [pf])).
Proof.
  intros pf st'. subst st'. unfold scan_file.
  destruct (decide (included self pf)) as [Hinc|Hinc].
  2:{ rewrite filter_cons_False by done.
      unfold included in Hinc. simpl in Hinc. apply not_true_is_false in Hinc.
      rewrite Hinc. split; [|simpl; lia].
      intros ext p. unfold included. simpl. rewrite Hinc.
      split; [by left | by intros [?|[? _]]]. }
  rewrite filter_cons_True by done. pose proof Hinc as Hb.
  unfold included in Hb. simpl in Hb. rewrite Hb. split; [|simpl; lia].
  intros ext p. unfold listed, key. simpl.
  set (k := lower (suffix (path_name (rp ++ [f_name f])))).
  set (m1 := match st.1 !! k with Some _ => st.1 | None => <[k:=[]]> st.1 end).
  assert (exists l0, m1 !! k = Some l0 /\
            (forall p, p ∈ l0 <-> listed st.1 k p) /\
            (forall ext, ext ≠ k -> m1 !! ext = st.1 !! ext)) as (l0 & Hk & Hl0 & Hne).
  { subst m1. destruct (st.1 !! k) as [l|] eqn:E.
    - exists l. split_and!; [done | | done]. intros q. unfold listed. rewrite E.
      split; [by exists l | by intros (? & [= <-] & ?)].
    - exists []. split_and!.
      + by rewrite lookup_insert_eq.
      + intros q. unfold listed. rewrite E. split; [by intros ?%elem_of_nil | by intros (? & ? & ?)].
      + intros ext' Hx. by rewrite lookup_insert_ne. }
  destruct (decide (ext = k)) as [->|Hx].
  - rewrite lookup_alter_eq, Hk. simpl. split.
    + intros (l & [= <-] & Hp). apply elem_of_app in Hp as [Hp|Hp%list_elem_of_singleton].
      * left. by apply Hl0.
      * right. by subst p.
    + intros [Hp|(_ & -> & _)].
      * eexists. split; [reflexivity|]. apply elem_of_app. left. by apply Hl0.
      * eexists. split; [reflexivity|]. apply elem_of_app. right. by apply list_elem_of_singleton.
  - rewrite lookup_alter_ne, Hne by done. split; [by left|].
    intros [H|(_ & -> & ->)]; [done|]. exfalso. by apply Hx.
Qed.

(** What a loop adds to the summary and the counter, from what each of
    its rounds adds. *)
Lemma scan_fold {A} (round : gmap string (list Path) * Z -> A -> gmap string (list Path) * Z)
    (items : A -> list (Path * fileinfo)) :
  (forall st x,
      (forall ext p, listed (round st x).1 ext p <->
         listed st.1 ext p \/
         (ext = key p /\ exists f, (p, f) ∈ filter (included self) (items x))) /\
      (round st x).2 = st.2 + Z.of_nat (length (filter (included self) (items x)))) ->
  forall l st,
    (forall ext p, listed (fold_left round l st).1 ext p <->
       listed st.1 ext p \/
       (ext = key p /\ exists f, (p, f) ∈ filter (included self) (flat_map items l))) /\
    (fold_left round l st).2 =
      st.2 + Z.of_nat (length (filter (included self) (flat_map items l))).
Proof.
  intros Hround. induction l as [|x l IH]; intros st; simpl.
  - split; [|lia]. intros ext p. split; [by left|].
    intros [H|(_ & f & Hf)]; [done|]. by apply elem_of_nil in Hf.
  - destruct (IH (round st x)) as [IH1 IH2]. destruct (Hround st x) as [H1 H2].
    rewrite filter_app, length_app. split; [|lia].
    intros ext p. rewrite IH1, H1. split.
    + intros [[H|(Hk & f & Hf)]|(Hk & f & Hf)]; [by left|right..];
        (split; [done|]); exists f; apply elem_of_app; [by left | by right].
    + intros [H|(Hk & f & Hf)]; [by left; left|].
      apply elem_of_app in Hf as [Hf|Hf]; [left; right | right]; eauto.
Qed.

Lemma scan_entry_spec st e :
  (forall ext p, listed (scan_entry self st e).1 ext p <->
     listed st.1 ext p \/
     (ext = key p /\ exists f, (p, f) ∈ filter (included self) (walk_files [e]))) /\
  (scan_entry self st e).2 =
    st.2 + Z.of_nat (length (filter (included self) (walk_files [e]))).
Proof.
  unfold scan_entry, walk_files. simpl. rewrite app_nil_r.
  replace ((fun f => (e.1 ++ [f_name f], f)) <$> e.2)
    with (flat_map (fun f => [(e.1 ++ [f_name f], f)]) e.2)
    by (induction e.2 as [|? ? IH]; simpl; [done | by rewrite IH]).
  apply scan_fold. intros st0 f.
  destruct (scan_file_spec e.1 st0 f) as [H1 H2]. split; [|done].
  intros ext p. rewrite H1. split.
  - intros [H|(Hi & -> & ->)]; [by left|]. right. split; [done|]. exists f.
    rewrite filter_cons_True by done. by apply list_elem_of_singleton.
  - intros [H|(-> & f' & Hf)]; [by left|]. right.
    destruct (decide (included self (e.1 ++ [f_name f], f))) as [Hi|Hi].
    + rewrite filter_cons_True in Hf by done.
      apply list_elem_of_singleton in Hf. injection Hf as -> _. done.
    + rewrite filter_cons_False in Hf by done. by apply elem_of_nil in Hf.
Qed.

(** The scan lists exactly the eligible files, each under its
    lower-cased extension, and counts them. *)
Lemma scan_spec fs :
  match fs !! code_folder_path self with
  | None => exists e, scan_codebase self fs = Raised e
  | Some _ =>
      exists r, scan_codebase self fs = Returned r /\
        (forall ext p, listed (summary r) ext p <->
           ext = key p /\ exists f, (p, f) ∈ eligible self fs) /\
        total_files r = Z.of_nat (length (eligible self fs))
  end.
Proof.
  unfold scan_codebase. destruct (fs !! code_folder_path self) eqn:E; [|by eexists].
  eexists. split; [reflexivity|]. simpl. unfold eligible.
  assert (walk_files (pruned_walk self fs) =
          flat_map (fun e => walk_files [e]) (pruned_walk self fs)) as ->.
  { induction (pruned_walk self fs) as [|e l IH]; [done|].
    rewrite walk_files_cons. cbn [flat_map]. by rewrite <- IH. }
  destruct (scan_fold (scan_entry self) (fun e => walk_files [e]) (scan_entry_spec)
                      (pruned_walk self fs) (∅, 0)) as [H1 H2].
  split; [|by rewrite H2].
  intros ext p. rewrite H1. simpl. split; [|by right].
  intros [(l & Hl & _)|H]; [|done]. by rewrite lookup_empty in Hl.
Qed.
End Config.
End ScanFacts.

Module LoopFacts.
Import Text Regex FS Searcher Spec TextFacts WalkFacts SearchFacts.

Local Arguments reached : simpl never.

(** Case analysis on the cap test after a file has been searched. *)
Ltac case_reached E :=
  match goal with
  | |- context [reached ?m (results_ ?st ++ ?ms)] =>
      destruct (reached m (results_ st ++ ms)) eqn:E
  end.

Section Search.
Variables (self : CSharpCodeSearcher).
Variables (query search_type : string) (case_sensitive : bool)
          (max_results context_lines : Z).

Local Abbreviation fm := (file_matches query search_type case_sensitive context_lines).
Local Abbreviation mc := (match_count query search_type case_sensitive context_lines).
Local Abbreviation sflat :=
  (search_flat self query search_type case_sensitive max_results context_lines).
Local Abbreviation len st := (Z.of_nat (length (results_ st))).

Lemma reached_true l : reached max_results l = true <-> max_results <= Z.of_nat (length l).
Proof. unfold reached. destruct (Z.geb_spec (Z.of_nat (length l)) max_results); split; (done || lia). Qed.

Lemma reached_false l : reached max_results l = false <-> Z.of_nat (length l) < max_results.
Proof. unfold reached. destruct (Z.geb_spec (Z.of_nat (length l)) max_results); split; (done || lia). Qed.

Lemma match_count_cons pf l : mc (pf :: l) = Z.of_nat (length (fm pf)) + mc l.
Proof. unfold match_count. simpl. rewrite length_app. lia. Qed.

Lemma match_count_app l1 l2 : mc (l1 ++ l2) = mc l1 + mc l2.
Proof. unfold match_count. rewrite flat_map_app, length_app. lia. Qed.

Lemma match_count_nonneg l : 0 <= mc l.
Proof. unfold match_count. lia. Qed.

Lemma search_files_flat rp fl : forall st,
  search_files self query search_type case_sensitive max_results context_lines rp fl st =
  sflat ((fun f => (rp ++ [f_name f], f)) <$> fl) st.
Proof.
  induction fl as [|f fl IH]; intros st; simpl; [done|].
  destruct (_should_include_file self (rp ++ [f_name f]) f); simpl; [|apply IH].
  destruct (f_text f); [|apply IH].
  destruct (reached _ _); [done | apply IH].
Qed.

Lemma search_flat_app l1 l2 : forall st,
  reached max_results (results_ st) = false ->
  sflat (l1 ++ l2) st =
  if reached max_results (results_ (sflat l1 st)) then sflat l1 st
  else sflat l2 (sflat l1 st).
Proof.
  induction l1 as [|pf l1 IH]; intros st Hst; simpl.
  - by rewrite Hst.
  - destruct (_should_include_file self pf.1 pf.2); simpl; [|by apply IH].
    destruct (f_text pf.2); [|by apply IH].
    case_reached E; simpl; [by rewrite E | by apply IH].
Qed.

Lemma search_walk_flat entries : forall st,
  reached max_results (results_ st) = false ->
  search_walk self query search_type case_sensitive max_results context_lines entries st =
  sflat (walk_files entries) st.
Proof.
  induction entries as [|[rp fl] entries IH]; intros st Hst; [done|].
  rewrite walk_files_cons, search_flat_app by done.
  cbn [search_walk]. rewrite search_files_flat.
  change (walk_files [(rp, fl)]) with (((fun f => (rp ++ [f_name f], f)) <$> fl) ++ []).
  rewrite app_nil_r.
  destruct (reached max_results (results_ (sflat _ st))) eqn:E; [done | by apply IH].
Qed.

(** The files opened are an initial segment of the eligible ones, the
    matches accumulated are those of the files opened, and the loop
    leaves files unopened only when the cap is reached. *)
Lemma search_flat_prefix l : forall st,
  exists pre post,
    filter (included self) l = pre ++ post /\
    opened (sflat l st) = opened st ++ pre /\
    results_ (sflat l st) = results_ st ++ flat_map fm pre /\
    (post = [] \/ reached max_results (results_ (sflat l st)) = true).
Proof.
  induction l as [|pf l IH]; intros st; simpl.
  - exists [], []. rewrite !app_nil_r. split_and!; auto.
  - destruct (decide (included self pf)) as [Hi|Hi].
    2:{ rewrite filter_cons_False by done. unfold included in Hi.
        apply not_true_is_false in Hi. rewrite Hi. simpl. apply IH. }
    rewrite filter_cons_True by done. pose proof Hi as Hb. unfold included in Hb.
    rewrite Hb. simpl.
    destruct (f_text pf.2) as [content|] eqn:Ht.
    + case_reached E.
      * exists [pf], (filter (included self) l). simpl.
        unfold file_matches. rewrite Ht, app_nil_r. split_and!; auto.
      * match goal with |- context [sflat l ?s] => destruct (IH s) as (pre & post & H1 & H2 & H3 & H4) end.
        exists (pf :: pre), post. simpl in *. rewrite H3 in H4. rewrite H1, H2, H3.
        unfold file_matches at 2. rewrite Ht. rewrite <- ?app_assoc in H4.
        split_and!; rewrite <- ?app_assoc; auto.
    + match goal with |- context [sflat l ?s] => destruct (IH s) as (pre & post & H1 & H2 & H3 & H4) end.
      exists (pf :: pre), post. simpl in *. rewrite H3 in H4. rewrite H1, H2, H3.
      unfold file_matches at 2. rewrite Ht. rewrite <- ?app_assoc in H4.
      split_and!; rewrite <- ?app_assoc; auto.
Qed.

Lemma search_walk_prefix entries : forall st,
  exists pre post,
    filter (included self) (walk_files entries) = pre ++ post /\
    opened (search_walk self query search_type case_sensitive max_results
                        context_lines entries st) = opened st ++ pre /\
    results_ (search_walk self query search_type case_sensitive max_results
                          context_lines entries st) = results_ st ++ flat_map fm pre.
Proof.
  induction entries as [|[rp fl] entries IH]; intros st.
  - exists [], []. simpl. by rewrite !app_nil_r.
  - rewrite walk_files_cons, filter_app. cbn [search_walk]. rewrite search_files_flat.
    change (walk_files [(rp, fl)]) with (((fun f => (rp ++ [f_name f], f)) <$> fl) ++ []).
    rewrite app_nil_r.
    destruct (search_flat_prefix ((fun f => (rp ++ [f_name f], f)) <$> fl) st)
      as (pre1 & post1 & H1 & H2 & H3 & H4).
    destruct (reached max_results (results_ (sflat _ st))) eqn:E.
    + exists pre1, (post1 ++ filter (included self) (walk_files entries)).
      rewrite H1, <- app_assoc. done.
    + destruct H4 as [->|H4]; [|congruence]. rewrite app_nil_r in H1.
      destruct (IH (sflat ((fun f => (rp ++ [f_name f], f)) <$> fl) st))
        as (pre2 & post2 & G1 & G2 & G3).
      exists (pre1 ++ pre2), post2.
      rewrite H1, G1, G2, G3, H2, H3, flat_map_app, <- !app_assoc. done.
Qed.

(** The loop stops right after the file that brings the count to the cap. *)
Lemma search_flat_stop l : forall st pre f post,
  filter (included self) l = pre ++ f :: post ->
  len st + mc pre < max_results ->
  max_results <= len st + mc (pre ++ [f]) ->
  opened (sflat l st) = opened st ++ pre ++ [f].
Proof.
  induction l as [|pf l IH]; intros st pre f post Hf Hlt Hge; simpl.
  - rewrite filter_nil in Hf. by destruct pre.
  - destruct (decide (included self pf)) as [Hi|Hi].
    2:{ rewrite filter_cons_False in Hf by done. unfold included in Hi.
        apply not_true_is_false in Hi. rewrite Hi. simpl. by eapply IH. }
    rewrite filter_cons_True in Hf by done. pose proof Hi as Hb. unfold included in Hb.
    rewrite Hb. simpl.
    destruct pre as [|pf' pre]; simpl in Hf; injection Hf as <- Hf.
    + cbn [app] in Hge. rewrite match_count_cons in Hge.
      unfold match_count in Hlt, Hge. simpl in Hlt, Hge.
      unfold file_matches in Hge.
      destruct (f_text pf.2) as [content|]; [|simpl in Hge; lia].
      assert (reached max_results (results_ st ++
                _search_in_file content pf.1 query search_type case_sensitive context_lines)
              = true) as ->; [|done].
      apply reached_true. rewrite length_app. lia.
    + rewrite match_count_cons in Hlt. cbn [app] in Hge. rewrite match_count_cons in Hge.
      pose proof (match_count_nonneg pre).
      unfold file_matches in Hlt, Hge.
      destruct (f_text pf.2) as [content|].
      * assert (reached max_results (results_ st ++
                  _search_in_file content pf.1 query search_type case_sensitive context_lines)
                = false) as ->.
        { apply reached_false. rewrite length_app. lia. }
        erewrite IH; [|done|simpl; rewrite length_app; lia..].
        simpl. by rewrite <- !app_assoc.
      * erewrite IH; [|done|simpl in *; lia..]. simpl. by rewrite <- !app_assoc.
Qed.

(** Below the cap, every eligible file is opened. *)
Lemma search_flat_full l : forall st,
  len st + mc (filter (included self) l) < max_results ->
  opened (sflat l st) = opened st ++ filter (included self) l.
Proof.
  induction l as [|pf l IH]; intros st Hlt; simpl.
  - by rewrite filter_nil, app_nil_r.
  - destruct (decide (included self pf)) as [Hi|Hi].
    2:{ rewrite filter_cons_False in Hlt |- * by done. unfold included in Hi.
        apply not_true_is_false in Hi. rewrite Hi. simpl. by apply IH. }
    rewrite filter_cons_True in Hlt |- * by done. pose proof Hi as Hb.
    unfold included in Hb. rewrite Hb. simpl.
    rewrite match_count_cons in Hlt.
    pose proof (match_count_nonneg (filter (included self) l)).
    unfold file_matches in Hlt.
    destruct (f_text pf.2) as [content|].
    + assert (reached max_results (results_ st ++
                _search_in_file content pf.1 query search_type case_sensitive context_lines)
              = false) as ->.
      { apply reached_false. rewrite length_app. lia. }
      rewrite IH; [|simpl; rewrite length_app; lia]. simpl. by rewrite <- !app_assoc.
    + rewrite IH; [|simpl in *; lia]. simpl. by rewrite <- !app_assoc.
Qed.
End Search.
End LoopFacts.

Module AnalyzeFacts.
Import Text Regex FS Searcher Spec TextFacts WalkFacts.

(** The accumulator's method list after one line: unchanged, or one
    descriptor longer when the list was below the cap. *)
Lemma analyze_line_methods file_path a raw :
  methods (analyze_line file_path a raw) = methods a \/
  (Z.of_nat (length (methods a)) < 100 /\
   exists method_name,
     methods (analyze_line file_path a raw) =
     methods a ++ [ {| name := method_name; file := file_path |} ]).
Proof.
  unfold analyze_line.
  destruct (startswith _ _ && _), (re_match false namespace_re _),
    (re_match false class_re _), (re_match false interface_re _),
    (re_match false method_re _); simpl; auto;
    (destruct (Z.ltb_spec (Z.of_nat (length (methods a))) 100); [|by left]);
    (case_bool_decide; [right; eauto | by left]).
Qed.

Lemma analyze_line_project_files file_path a raw :
  project_files (analyze_line file_path a raw) = project_files a.
Proof.
  unfold analyze_line.
  destruct (startswith _ _ && _), (re_match false namespace_re _),
    (re_match false class_re _), (re_match false interface_re _),
    (re_match false method_re _); simpl; auto;
    destruct (_ <? 100); try case_bool_decide; done.
Qed.

Lemma apply_step_methods a s :
  methods (apply_step a s) = methods a \/
  (Z.of_nat (length (methods a)) < 100 /\
   exists file_path raw method_name,
     s = LineStep file_path raw /\
     methods (apply_step a s) =
     methods a ++ [ {| name := method_name; file := file_path |} ]).
Proof.
  destruct s as [file_path raw|file_path]; simpl; [|by left].
  destruct (analyze_line_methods file_path a raw) as [H|(Hlt & m & H)]; [by left|].
  right. split; [done|]. by exists file_path, raw, m.
Qed.

(** The cap on the method list holds after any sequence of steps. *)
Lemma steps_methods_bound steps : forall a,
  Z.of_nat (length (methods a)) <= 100 ->
  Z.of_nat (length (methods (fold_left apply_step steps a))) <= 100.
Proof.
  induction steps as [|s steps IH]; intros a Ha; simpl; [done|].
  apply IH. destruct (apply_step_methods a s) as [->|(Hlt & ? & ? & ? & _ & ->)]; [done|].
  rewrite length_app. simpl. lia.
Qed.

Lemma steps_methods_origin steps : forall a m,
  m ∈ methods (fold_left apply_step steps a) ->
  m ∈ methods a \/ exists raw, LineStep (file m) raw ∈ steps.
Proof.
  induction steps as [|s steps IH]; intros a m Hm; simpl in *; [by left|].
  apply IH in Hm as [Hm|[raw Hm]]; [|right; exists raw; by right].
  destruct (apply_step_methods a s) as [E|(_ & fp & raw & mn & -> & E)];
    rewrite E in Hm; [by left|].
  apply elem_of_app in Hm as [Hm|Hm%list_elem_of_singleton]; [by left|].
  right. exists raw. subst m. by left.
Qed.

Lemma steps_project_files steps : forall a,
  project_files (fold_left apply_step steps a) =
  project_files a ++ omap (fun s => match s with ProjectStep p => Some p | _ => None end) steps.
Proof.
  induction steps as [|s steps IH]; intros a; simpl; [by rewrite app_nil_r|].
  rewrite IH. destruct s as [fp raw|fp]; simpl.
  - by rewrite analyze_line_project_files.
  - by rewrite <- app_assoc.
Qed.

Lemma steps_of_file_line files file_path raw :
  LineStep file_path raw ∈ flat_map steps_of_file files ->
  exists f, (file_path, f) ∈ files /\ is_cs (file_path, f).
Proof.
  intros H. apply list_elem_of_In, in_flat_map in H as ([p f] & Hin & H).
  apply list_elem_of_In in Hin, H. unfold steps_of_file in H.
  destruct (decide (is_cs (p, f))) as [Hcs|Hcs].
  - simpl in H. destruct (f_text f); [|by apply elem_of_nil in H].
    apply list_elem_of_fmap in H as (raw' & [= -> ->] & _). by exists f.
  - destruct (decide (is_project (p, f))); [|by apply elem_of_nil in H].
    by apply list_elem_of_singleton in H.
Qed.

Lemma steps_of_file_project files file_path :
  ProjectStep file_path ∈ flat_map steps_of_file files ->
  exists f, (file_path, f) ∈ files /\ is_project (file_path, f).
Proof.
  intros H. apply list_elem_of_In, in_flat_map in H as ([p f] & Hin & H).
  apply list_elem_of_In in Hin, H. unfold steps_of_file in H.
  destruct (decide (is_cs (p, f))) as [Hcs|Hcs].
  - simpl in H. destruct (f_text f); [|by apply elem_of_nil in H].
    by apply list_elem_of_fmap in H as (raw' & ? & _).
  - destruct (decide (is_project (p, f))); [|by apply elem_of_nil in H].
    apply list_elem_of_singleton in H as [= ->]. by exists f.
Qed.

Lemma fold_line_steps file_path lines : forall a,
  fold_left apply_step (LineStep file_path <$> lines) a =
  fold_left (analyze_line file_path) lines a.
Proof. induction lines as [|l lines IH]; intros a; simpl; [done | apply IH]. Qed.

Lemma analyze_file_steps rp st f :
  (analyze_file rp st f).1 =
    fold_left apply_step (steps_of_file (rp ++ [f_name f], f)) st.1 /\
  (analyze_file rp st f).2 = st.2 ++ filter is_cs [(rp ++ [f_name f], f)].
Proof.
  unfold analyze_file, steps_of_file, _analyze_cs_file.
  destruct (decide (is_cs (rp ++ [f_name f], f))) as [Hcs|Hcs].
  - rewrite filter_cons_True by done. unfold is_cs in Hcs. simpl in Hcs. rewrite Hcs.
    simpl. destruct (f_text f); simpl; [by rewrite fold_line_steps | done].
  - rewrite filter_cons_False by done. unfold is_cs in Hcs. simpl in Hcs.
    apply String.eqb_neq in Hcs. rewrite Hcs. rewrite app_nil_r.
    destruct (decide (is_project (rp ++ [f_name f], f))) as [Hp|Hp].
    + unfold is_project in Hp. simpl in Hp. by rewrite bool_decide_eq_true_2.
    + unfold is_project in Hp. simpl in Hp. rewrite bool_decide_eq_false_2 by done.
      by destruct st.
Qed.

Lemma analyze_entries_steps entries : forall st,
  (fold_left analyze_entry entries st).1 =
    fold_left apply_step (flat_map steps_of_file (walk_files entries)) st.1 /\
  (fold_left analyze_entry entries st).2 = st.2 ++ filter is_cs (walk_files entries).
Proof.
  assert (forall rp fl st,
    (fold_left (analyze_file rp) fl st).1 =
      fold_left apply_step
        (flat_map steps_of_file ((fun f => (rp ++ [f_name f], f)) <$> fl)) st.1 /\
    (fold_left (analyze_file rp) fl st).2 =
      st.2 ++ filter is_cs ((fun f => (rp ++ [f_name f], f)) <$> fl)) as Hfiles.
  { intros rp. induction fl as [|f fl IH]; intros st; simpl.
    - rewrite filter_nil. by rewrite app_nil_r.
    - destruct (IH (analyze_file rp st f)) as [-> ->].
      destruct (analyze_file_steps rp st f) as [-> ->].
      split; [by rewrite fold_left_app|].
      rewrite <- app_assoc. f_equal. symmetry. apply (filter_app _ [_]). }
  induction entries as [|[rp fl] entries IH]; intros st.
  - simpl. rewrite filter_nil. by rewrite app_nil_r.
  - rewrite walk_files_cons, flat_map_app, fold_left_app, filter_app. cbn [fold_left].
    destruct (IH (analyze_entry st (rp, fl))) as [-> ->].
    unfold analyze_entry. simpl.
    destruct (Hfiles rp fl st) as [-> ->].
    change (walk_files [(rp, fl)]) with (((fun f => (rp ++ [f_name f], f)) <$> fl) ++ []).
    rewrite app_nil_r, <- app_assoc. done.
Qed.

(** The run of the analysis is the fold of its steps, and it opens every
    [.cs] file of the pruned tree. *)
Lemma analyze_run_steps self fs :
  (analyze_run self fs).1 = fold_left apply_step (analysis_steps self fs) empty_analysis /\
  (analyze_run self fs).2 = filter is_cs (walk_files (pruned_walk self fs)).
Proof.
  unfold analyze_run, analysis_steps.
  destruct (analyze_entries_steps (pruned_walk self fs) (empty_analysis, [])) as [-> ->].
  done.
Qed.
End AnalyzeFacts.

(** ** The operations *)

Import Text Regex FS Searcher.
Import Spec TextFacts SearchFacts WalkFacts ScanFacts LoopFacts AnalyzeFacts ClassMode.

Lemma slice_to_subseteq {A} (l : list A) (b : Z) : slice_to l b ⊆ l.
Proof.
  unfold slice_to, slice. etrans; [apply subseteq_take | apply subseteq_drop].
Qed.

Lemma flat_map_nil {A B} (f : A -> list B) (l : list A) :
  (forall x, f x = []) -> flat_map f l = [].
Proof. intros H. induction l as [|x l IH]; simpl; [done|]. by rewrite H, IH. Qed.

Section Search.
Variables (self : CSharpCodeSearcher) (fs : disk).
Variables (query search_type : string) (case_sensitive : bool)
          (max_results context_lines : Z).

Local Abbreviation run :=
  (search_run self fs query search_type case_sensitive max_results context_lines).
Local Abbreviation fm := (file_matches query search_type case_sensitive context_lines).

(** The search opens an initial segment of the eligible files and
    accumulates the matches of the files it opened. *)
Lemma search_run_prefix :
  exists post, eligible self fs = opened run ++ post /\
               results_ run = flat_map fm (opened run).
Proof.
  unfold search_run, eligible.
  destruct (search_walk_prefix self query search_type case_sensitive max_results
              context_lines (pruned_walk self fs) {| results_ := []; opened := [] |})
    as (pre & post & H1 & H2 & H3).
  simpl in H2, H3. rewrite H2, H3. by exists post.
Qed.

Lemma opened_eligible pf : pf ∈ opened run -> pf ∈ eligible self fs.
Proof.
  destruct search_run_prefix as (post & -> & _). intros H. apply elem_of_app. by left.
Qed.

Lemma result_file m :
  m ∈ results_ run -> exists f, (file_ m, f) ∈ opened run.
Proof.
  destruct search_run_prefix as (post & _ & ->). intros H.
  apply list_elem_of_In, in_flat_map in H as ([p f] & Hin & H).
  apply list_elem_of_In in Hin, H. unfold file_matches in H. simpl in H.
  destruct (f_text f); [|by apply elem_of_nil in H].
  apply search_in_file_path in H as ->. by exists f.
Qed.
End Search.

Lemma eligible_walked self fs pf :
  pf ∈ eligible self fs -> pf ∈ walk_files (pruned_walk self fs) /\ acceptable self pf.
Proof.
  unfold eligible. rewrite list_elem_of_filter. intros [Hi Hw]. split; [done|].
  by apply include_spec.
Qed.

Lemma walked_clear self fs fragment pf :
  fragment ∈ skip_folders self ->
  pf ∈ walk_files (pruned_walk self fs) -> clear_of fragment pf.1.
Proof.
  intros Hf Hw d Hd Hc. apply (pruned_walk_clean self fs pf Hw). by exists d, fragment.
Qed.

(** ** A missing root *)

(** C1: when the root path does not exist, [scan_codebase] raises
    [FileNotFoundError], while [search_code] returns a result with no match
    and no error, and [analyze_project_structure] returns the empty
    analysis: of the three operations only the scan surfaces the missing
    root. *)
Theorem missing_root_surfaces_only_in_scan
    self (fs : disk) query search_type case_sensitive max_results context_lines :
  fs !! code_folder_path self = None ->
  scan_codebase self fs =
    Raised (FileNotFoundError ("Code folder not found: " +:+ code_folder_path self)) /\
  search_code self fs query search_type case_sensitive max_results context_lines =
    SearchOk {| query_ := query; search_type_ := search_type;
                total_matches := 0; results := [] |} /\
  analyze_project_structure self fs = export empty_analysis.
Proof.
  intros Hroot. split_and!.
  - unfold scan_codebase. by rewrite Hroot.
  - unfold search_code, search_run, pruned_walk. rewrite Hroot. simpl.
    by rewrite slice_to_nil.
  - unfold analyze_project_structure, analyze_run, pruned_walk. by rewrite Hroot.
Qed.

Lemma missing_root_witness :
  scan_codebase Scenario.searcher ∅ =
    Raised (FileNotFoundError ("Code folder not found: " +:+ "/proj")) /\
  search_code Scenario.searcher ∅ "Foo" "content" false 20 3 =
    SearchOk {| query_ := "Foo"; search_type_ := "content";
                total_matches := 0; results := [] |} /\
  analyze_project_structure Scenario.searcher ∅ = export empty_analysis.
Proof.
  apply (missing_root_surfaces_only_in_scan Scenario.searcher ∅ "Foo" "content" false 20 3).
  reflexivity.
Defined.

(** Where the files that contribute to each operation come from: the
    eligible files for the scan and the search, the [.cs] and project files
    of the pruned tree for the analysis. *)
Lemma contributions self (fs : disk) :
  (forall r ext p,
      scan_codebase self fs = Returned r -> listed (summary r) ext p ->
      exists f, (p, f) ∈ eligible self fs) /\
  (forall query search_type case_sensitive max_results context_lines pf,
      pf ∈ opened (search_run self fs query search_type case_sensitive
                              max_results context_lines) ->
      pf ∈ eligible self fs) /\
  (forall query search_type case_sensitive max_results context_lines r m,
      search_code self fs query search_type case_sensitive max_results context_lines
        = SearchOk r ->
      m ∈ results r ->
      exists f, (file_ m, f) ∈ eligible self fs) /\
  (forall pf, pf ∈ (analyze_run self fs).2 ->
      pf ∈ walk_files (pruned_walk self fs) /\ is_cs pf) /\
  (forall p, p ∈ out_project_files (analyze_project_structure self fs) ->
      exists f, (p, f) ∈ walk_files (pruned_walk self fs) /\ is_project (p, f)) /\
  (forall m, m ∈ out_methods (analyze_project_structure self fs) ->
      exists f, (file m, f) ∈ walk_files (pruned_walk self fs) /\ is_cs (file m, f)).
Proof.
  split_and!.
  - intros r ext p Hr Hl. pose proof (scan_spec self fs) as Hs.
    destruct (fs !! code_folder_path self).
    + destruct Hs as (r' & Hr' & Hlist & _). rewrite Hr in Hr'. injection Hr' as <-.
      by apply Hlist in Hl as (_ & f & Hf); exists f.
    + destruct Hs as [e He]. congruence.
  - intros * H. by apply opened_eligible in H.
  - intros * [= <-] Hm. simpl in Hm. apply slice_to_subseteq, result_file in Hm as [f Hf].
    exists f. by apply opened_eligible in Hf.
  - intros pf. destruct (analyze_run_steps self fs) as [_ ->].
    rewrite list_elem_of_filter. by intros [? ?].
  - intros p. unfold analyze_project_structure. simpl.
    destruct (analyze_run_steps self fs) as [-> _]. rewrite steps_project_files. simpl.
    rewrite list_elem_of_omap. intros ([fp raw|fp] & Hs & [= ->]).
    by apply steps_of_file_project in Hs.
  - intros m Hm. unfold analyze_project_structure in Hm. simpl in Hm.
    apply slice_to_subseteq in Hm.
    destruct (analyze_run_steps self fs) as [E _]. rewrite E in Hm.
    apply steps_methods_origin in Hm as [Hm|[raw Hm]]; [by apply elem_of_nil in Hm|].
    by apply steps_of_file_line in Hm.
Qed.

(** ** Admission *)

(** C2, as stated, fails for the analysis: with only [.txt] files of at
    most four bytes allowed, the analysis still opens the nine-byte
    [Big.cs] and exports its class. *)
Lemma analyze_ignores_admission :
  let pf := (["Big.cs"], Scenario.big_cs) in
  pf ∈ (analyze_run Scenario.strict_searcher Scenario.big_disk).2 /\
  out_classes (analyze_project_structure Scenario.strict_searcher Scenario.big_disk) = ["Big"] /\
  ~ acceptable Scenario.strict_searcher pf.
Proof.
  split_and!.
  - vm_compute. by left.
  - by vm_compute.
  - intros [(ext & Hext & Heq) _]. vm_compute in Hext.
    apply list_elem_of_singleton in Hext as ->. vm_compute in Heq. done.
Qed.

(** C2, amended: every file that contributes to a scan or to a search lies
    in the pruned tree, has a lower-cased extension equal to a lower-cased
    configured extension and a size within the ceiling; every file opened
    by the analysis has the lower-cased extension [.cs] and every project
    file it records has [.csproj] or [.sln], whatever the configured
    extensions. *)
Theorem contributing_files_accepted self (fs : disk) :
  (forall r ext p,
      scan_codebase self fs = Returned r -> listed (summary r) ext p ->
      exists f, (p, f) ∈ walk_files (pruned_walk self fs) /\ acceptable self (p, f)) /\
  (forall query search_type case_sensitive max_results context_lines pf,
      pf ∈ opened (search_run self fs query search_type case_sensitive
                              max_results context_lines) ->
      pf ∈ walk_files (pruned_walk self fs) /\ acceptable self pf) /\
  (forall query search_type case_sensitive max_results context_lines r m,
      search_code self fs query search_type case_sensitive max_results context_lines
        = SearchOk r ->
      m ∈ results r ->
      exists f, (file_ m, f) ∈ walk_files (pruned_walk self fs) /\
                acceptable self (file_ m, f)) /\
  (forall pf, pf ∈ (analyze_run self fs).2 ->
      pf ∈ walk_files (pruned_walk self fs) /\ key pf.1 = ".cs") /\
  (forall p, p ∈ out_project_files (analyze_project_structure self fs) ->
      (exists f, (p, f) ∈ walk_files (pruned_walk self fs)) /\
      key p ∈ [".csproj"; ".sln"]) /\
  (forall m, m ∈ out_methods (analyze_project_structure self fs) ->
      (exists f, (file m, f) ∈ walk_files (pruned_walk self fs)) /\ key (file m) = ".cs").
Proof.
  destruct (contributions self fs) as (Hscan & Hopen & Hres & Hcs & Hproj & Hmeth).
  split_and!.
  - intros r ext p Hr Hl. destruct (Hscan r ext p Hr Hl) as [f Hf].
    exists f. by apply eligible_walked.
  - intros * H. by apply Hopen, eligible_walked in H.
  - intros * Hr Hm. destruct (Hres _ _ _ _ _ _ _ Hr Hm) as [f Hf].
    exists f. by apply eligible_walked.
  - intros pf H. by apply Hcs in H.
  - intros p H. apply Hproj in H as (f & Hw & Hp). split; [by exists f | done].
  - intros m H. apply Hmeth in H as (f & Hw & Hc). split; [by exists f | done].
Qed.

Lemma contributing_files_witness :
  let S := Scenario.searcher in
  let D := Scenario.on_disk in
  let foo := (["src"; "Foo.cs"], Scenario.foo_cs) in
  (exists f, (foo.1, f) ∈ walk_files (pruned_walk S D) /\ acceptable S (foo.1, f)) /\
  (foo ∈ walk_files (pruned_walk S D) /\ acceptable S foo) /\
  (foo ∈ walk_files (pruned_walk S D) /\ key foo.1 = ".cs").
Proof.
  intros S D foo.
  destruct (contributing_files_accepted S D) as (Hscan & Hopen & _ & Hcs & _).
  split; [|split].
  - apply (Hscan {| summary := {[ ".cs" := [foo.1] ]}; total_files := 1;
                    project_root := "/proj" |} ".cs").
    + vm_compute. reflexivity.
    + exists [foo.1]. split; [vm_compute; reflexivity | by left].
  - apply (Hopen "Foo" "class" false 20 3). vm_compute. by left.
  - apply Hcs. vm_compute. by left.
Defined.

(** ** The class mode *)

(** C3, as stated, fails in its scenario: a search for [Repository] in
    class mode over a tree whose files hold the lines
    [public interface IUserRepository] and [var myRepository = new Thing();]
    reports no match at all. *)
Lemma interface_prefix_not_matched :
  search_code Scenario.repo_searcher Scenario.repo_disk "Repository" "class" false 20 3 =
    SearchOk {| query_ := "Repository"; search_type_ := "class";
                total_matches := 0; results := [] |}.
Proof. vm_compute. reflexivity. Qed.

(** C3, amended: in class mode a line of a file yields a match exactly
    when one of the keywords class, interface, struct or enum, at a word
    boundary, is followed by whitespace and then by the query ending at a
    word boundary.  So the query [Repository] matches the line
    [public interface Repository], but neither
    [public interface IUserRepository] (the query must start right after
    the whitespace) nor [var myRepository = new Thing();]. *)
Theorem class_mode_characterised :
  (forall case_sensitive query line,
      line_matches (_get_search_patterns query "class") case_sensitive line = true <->
      class_mode_line case_sensitive query line) /\
  (forall content file_path query case_sensitive context_lines (k : nat),
      (exists m, m ∈ _search_in_file content file_path query "class"
                        case_sensitive context_lines /\
                 line_number m = 1 + Z.of_nat k) <->
      (exists line, split_lines content !! k = Some line /\
                    class_mode_line case_sensitive query line)) /\
  (forall case_sensitive,
      line_matches (_get_search_patterns "Repository" "class") case_sensitive
                   "public interface Repository" = true /\
      line_matches (_get_search_patterns "Repository" "class") case_sensitive
                   "public interface IUserRepository" = false /\
      line_matches (_get_search_patterns "Repository" "class") case_sensitive
                   "var myRepository = new Thing();" = false).
Proof.
  split_and!.
  - apply class_mode_matches.
  - intros content file_path query cs c k. split.
    + intros (m & Hm & Hk). apply search_in_file_lines in Hm; [|by repeat constructor].
      destruct Hm as (k' & line & Hl & Hmatch & ->). simpl in Hk.
      assert (k' = k) as -> by lia. exists line. split; [done|].
      by apply class_mode_matches.
    + intros (line & Hl & Hmatch). apply class_mode_matches in Hmatch.
      eexists. split.
      * apply search_in_file_lines; [by repeat constructor|]. by exists k, line.
      * done.
  - intros []; by vm_compute.
Qed.

Lemma class_mode_witness :
  class_mode_line false "Repository" "public interface Repository".
Proof.
  apply (proj1 class_mode_characterised false "Repository" "public interface Repository").
  vm_compute. reflexivity.
Defined.

(** ** Skipped directories *)

(** C4: for every configured skip-fragment, no file listed by a scan,
    opened or reported by a search, or opened or recorded by the analysis
    lies under a directory whose name contains the fragment,
    case-insensitively; and with the skip-fragment [bin], the analysis of a
    root holding [src/Foo.cs] (namespace [App.Models], class [Foo]) and
    [bin/Generated.cs] (class [Bar]) yields the namespaces [App.Models], the
    classes [Foo], and not [Bar]. *)
Theorem skipped_directories_excluded :
  (forall self (fs : disk) fragment,
      fragment ∈ skip_folders self ->
      (forall r ext p,
          scan_codebase self fs = Returned r -> listed (summary r) ext p ->
          clear_of fragment p) /\
      (forall query search_type case_sensitive max_results context_lines pf,
          pf ∈ opened (search_run self fs query search_type case_sensitive
                                  max_results context_lines) ->
          clear_of fragment pf.1) /\
      (forall query search_type case_sensitive max_results context_lines r m,
          search_code self fs query search_type case_sensitive max_results context_lines
            = SearchOk r ->
          m ∈ results r -> clear_of fragment (file_ m)) /\
      (forall pf, pf ∈ (analyze_run self fs).2 -> clear_of fragment pf.1) /\
      (forall p, p ∈ out_project_files (analyze_project_structure self fs) ->
                 clear_of fragment p) /\
      (forall m, m ∈ out_methods (analyze_project_structure self fs) ->
                 clear_of fragment (file m))) /\
  (let r := analyze_project_structure Scenario.searcher Scenario.on_disk in
   skip_folders Scenario.searcher = ["bin"] /\
   out_namespaces r = ["App.Models"] /\
   out_classes r = ["Foo"] /\
   "Bar" ∉ out_classes r).
Proof.
  split.
  - intros self fs fragment Hfrag.
    destruct (contributions self fs) as (Hscan & Hopen & Hres & Hcs & Hproj & Hmeth).
    split_and!.
    + intros r ext p Hr Hl. destruct (Hscan r ext p Hr Hl) as [f Hf].
      apply eligible_walked in Hf as [Hw _].
      by apply (walked_clear self fs fragment (p, f)).
    + intros * H. apply Hopen, eligible_walked in H as [Hw _]. by eapply walked_clear.
    + intros * Hr Hm. destruct (Hres _ _ _ _ _ _ _ Hr Hm) as [f Hf].
      apply eligible_walked in Hf as [Hw _].
      by apply (walked_clear self fs fragment (file_ m, f)).
    + intros pf H. apply Hcs in H as [Hw _]. by eapply walked_clear.
    + intros p H. apply Hproj in H as (f & Hw & _).
      by apply (walked_clear self fs fragment (p, f)).
    + intros m H. apply Hmeth in H as (f & Hw & _).
      by apply (walked_clear self fs fragment (file m, f)).
  - vm_compute. split_and!; try reflexivity.
    intros H. apply list_elem_of_singleton in H. discriminate H.
Qed.

Lemma skipped_directories_witness :
  clear_of "bin" ["src"; "Foo.cs"].
Proof.
  assert ("bin" ∈ skip_folders Scenario.searcher) as Hfrag by (vm_compute; by left).
  destruct (proj1 skipped_directories_excluded Scenario.searcher Scenario.on_disk "bin" Hfrag)
    as (_ & _ & _ & Hcs & _).
  apply (Hcs (["src"; "Foo.cs"], Scenario.foo_cs)). vm_compute. by left.
Defined.

(** ** The result cap *)

(** C5: the sequence returned by a search is never longer than a
    non-negative [max_results]; the files opened are an initial segment of
    the eligible files in traversal order, ending with the first file whose
    matches bring the accumulated count to [max_results] (every eligible
    file when the count stays below); the scan lists and counts every
    eligible file and the analysis opens every [.cs] file and records every
    project file of the pruned tree, neither taking [max_results]. *)
Theorem search_stops_at_cap self (fs : disk)
    query search_type case_sensitive max_results context_lines :
  let run := search_run self fs query search_type case_sensitive max_results context_lines in
  let count := match_count query search_type case_sensitive context_lines in
  (exists r,
      search_code self fs query search_type case_sensitive max_results context_lines
        = SearchOk r /\
      (0 <= max_results -> Z.of_nat (length (results r)) <= max_results)) /\
  (exists unread, eligible self fs = opened run ++ unread) /\
  (forall before f after,
      eligible self fs = before ++ f :: after ->
      count before < max_results -> max_results <= count (before ++ [f]) ->
      opened run = before ++ [f]) /\
  (count (eligible self fs) < max_results -> opened run = eligible self fs) /\
  (forall top, fs !! code_folder_path self = Some top ->
      exists r, scan_codebase self fs = Returned r /\
        total_files r = Z.of_nat (length (eligible self fs)) /\
        forall pf, pf ∈ eligible self fs -> listed (summary r) (key pf.1) pf.1) /\
  (analyze_run self fs).2 = filter is_cs (walk_files (pruned_walk self fs)) /\
  (forall pf, pf ∈ walk_files (pruned_walk self fs) -> ~ is_cs pf -> is_project pf ->
      pf.1 ∈ out_project_files (analyze_project_structure self fs)).
Proof.
  intros run count. split_and!.
  - eexists. split; [reflexivity|]. intros Hmax. simpl. by apply slice_to_length.
  - destruct (search_run_prefix self fs query search_type case_sensitive max_results
                context_lines) as (post & H & _). by exists post.
  - intros before f after Hadm Hlt Hge. subst run. unfold search_run.
    pose proof (match_count_nonneg query search_type case_sensitive context_lines before).
    rewrite search_walk_flat by (apply reached_false; simpl; fold count in H; lia).
    by erewrite search_flat_stop.
  - intros Hlt. subst run. unfold search_run.
    pose proof (match_count_nonneg query search_type case_sensitive context_lines
                  (eligible self fs)).
    rewrite search_walk_flat by (apply reached_false; simpl; fold count in H; lia).
    by rewrite search_flat_full.
  - intros top Htop. pose proof (scan_spec self fs) as Hs. rewrite Htop in Hs.
    destruct Hs as (r & Hr & Hl & Ht). exists r. split_and!; [done..|].
    intros [p f] Hpf. apply Hl. split; [done|]. by exists f.
  - by destruct (analyze_run_steps self fs) as [_ ->].
  - intros [p f] Hw Hcs Hp. unfold analyze_project_structure. simpl.
    destruct (analyze_run_steps self fs) as [-> _]. rewrite steps_project_files. simpl.
    apply list_elem_of_omap. exists (ProjectStep p). split; [|done].
    unfold analysis_steps. apply list_elem_of_In, in_flat_map. exists (p, f).
    split; [by apply list_elem_of_In|]. apply list_elem_of_In.
    unfold steps_of_file. rewrite decide_False, decide_True by done. by left.
Qed.

Lemma search_stops_at_cap_witness :
  let S := Scenario.repo_searcher in
  let D := Scenario.three_files_disk in
  let a := (["A.cs"], Scenario.one_match "A.cs") in
  opened (search_run S D "foo" "content" false 1 3) = [a] /\
  (exists r, scan_codebase S D = Returned r /\
     total_files r = Z.of_nat (length (eligible S D)) /\
     forall pf, pf ∈ eligible S D -> listed (summary r) (key pf.1) pf.1).
Proof.
  intros S D a.
  destruct (search_stops_at_cap S D "foo" "content" false 1 3)
    as (_ & _ & Hstop & _ & Hscan & _).
  split.
  - apply (Hstop [] a [(["B.cs"], Scenario.one_match "B.cs");
                       (["C.cs"], Scenario.one_match "C.cs")]).
    + vm_compute. reflexivity.
    + vm_compute. reflexivity.
    + vm_compute. discriminate.
  - apply (Hscan (Dir "repo" [File (Scenario.one_match "A.cs");
                              File (Scenario.one_match "B.cs");
                              File (Scenario.one_match "C.cs")])).
    vm_compute. reflexivity.
Defined.

(** C9: [total_matches] is the number of matches found in the files the
    search opened, counted before the returned list is cut to
    [max_results]; the cap being tested only after a whole file, it can
    exceed both [max_results] and the length of the returned list. *)
Theorem total_matches_counts_before_truncation :
  (forall self (fs : disk) query search_type case_sensitive max_results context_lines,
      let run := search_run self fs query search_type case_sensitive
                            max_results context_lines in
      let found := flat_map (file_matches query search_type case_sensitive context_lines)
                            (opened run) in
      exists r,
        search_code self fs query search_type case_sensitive max_results context_lines
          = SearchOk r /\
        total_matches r = Z.of_nat (length found) /\
        results r = slice_to found max_results) /\
  (exists r,
      search_code Scenario.repo_searcher Scenario.log_disk "foo" "content" false 1 3
        = SearchOk r /\
      total_matches r = 3 /\ length (results r) = 1%nat /\
      1 < total_matches r /\ Z.of_nat (length (results r)) < total_matches r).
Proof.
  split.
  - intros self fs query search_type case_sensitive max_results context_lines run found.
    destruct (search_run_prefix self fs query search_type case_sensitive max_results
                context_lines) as (post & _ & Hres).
    subst run found. unfold search_code. eexists. split; [reflexivity|].
    cbn [total_matches results]. by rewrite Hres.
  - eexists. split; [reflexivity|]. vm_compute. done.
Qed.

(** C10: a search whose mode is none of content, filename, class, method
    and variable returns a result with [total_matches = 0] and no record,
    and no error. *)
Theorem unknown_mode_finds_nothing self (fs : disk)
    query search_type case_sensitive max_results context_lines :
  search_type ∉ ["content"; "filename"; "class"; "method"; "variable"] ->
  search_code self fs query search_type case_sensitive max_results context_lines =
    SearchOk {| query_ := query; search_type_ := search_type;
                total_matches := 0; results := [] |}.
Proof.
  intros Hmode. unfold search_code.
  destruct (search_run_prefix self fs query search_type case_sensitive max_results
              context_lines) as (post & _ & ->).
  rewrite flat_map_nil; [by rewrite slice_to_nil|].
  intros [p f]. unfold file_matches. simpl. destruct (f_text f); [|done].
  by apply search_in_file_other.
Qed.

Lemma unknown_mode_witness :
  search_code Scenario.searcher Scenario.on_disk "Foo" "regex" false 20 3 =
    SearchOk {| query_ := "Foo"; search_type_ := "regex";
                total_matches := 0; results := [] |}.
Proof.
  apply unknown_mode_finds_nothing.
  intros H. repeat (apply elem_of_cons in H as [H|H]; [discriminate H|]).
  by apply elem_of_nil in H.
Defined.

(** ** The context window *)

Lemma context_window_witness :
  let content := "one" +:+ Scenario.nl +:+ "two foo" +:+ Scenario.nl +:+
                 "three" +:+ Scenario.nl +:+ "four" in
  let lines := split_lines content in
  let m := {| file_ := ["A.cs"]; type_ := "content"; line_number := 2;
              match_ := "two foo"; context := Some ["one"; "two foo"; "three"];
              context_start_line := Some 1 |} in
  2 <= Z.of_nat (length lines) /\
  context m = Some (lines_numbered lines (Z.max 1 (2 - 1)) (Z.min (Z.of_nat (length lines)) (2 + 1))) /\
  context_start_line m = Some (Z.max 1 (2 - 1)).
Proof.
  intros content lines m.
  apply (context_window content ["A.cs"] "foo" "content" false 1 m).
  - lia.
  - vm_compute. by left.
  - vm_compute. discriminate.
Defined.

(** ** The method list *)

(** C7: at every point of the analysis the accumulated method list has at
    most 100 entries, a line met when the list is full leaves it unchanged
    (and nothing is raised: the step is a total function), the exported
    method list has at most 50 entries, and the exported namespaces,
    classes and interfaces have no duplicates. *)
Theorem method_list_capped :
  (forall self (fs : disk),
      (analyze_run self fs).1 =
        fold_left apply_step (analysis_steps self fs) empty_analysis /\
      forall n : nat,
        Z.of_nat (length (methods (fold_left apply_step (take n (analysis_steps self fs))
                                             empty_analysis))) <= 100) /\
  (forall file_path a raw,
      100 <= Z.of_nat (length (methods a)) ->
      methods (analyze_line file_path a raw) = methods a) /\
  (forall self (fs : disk),
      let r := analyze_project_structure self fs in
      Z.of_nat (length (out_methods r)) <= 50 /\
      NoDup (out_namespaces r) /\ NoDup (out_classes r) /\ NoDup (out_interfaces r)).
Proof.
  split_and!.
  - intros self fs. split; [by destruct (analyze_run_steps self fs)|].
    intros n. by apply steps_methods_bound.
  - intros file_path a raw Hfull.
    destruct (analyze_line_methods file_path a raw) as [H|[Hlt _]]; [done | lia].
  - intros self fs r. subst r. unfold analyze_project_structure, export. simpl.
    split_and!; [by apply slice_to_length | apply NoDup_elements..].
Qed.

Lemma method_list_capped_witness :
  methods (analyze_line ["B.cs"] Scenario.full_analysis "public void Go()") =
  methods Scenario.full_analysis.
Proof.
  apply (proj1 (proj2 method_list_capped)). vm_compute. discriminate.
Defined.

(** ** Reading one file *)

(** C8: for a readable file of [T] lines and [max_lines >= T],
    [get_file_content] reports [truncated = false] and a number of returned
    lines equal to [T]. *)
Theorem whole_file_not_truncated self (fs : disk) file_path f content max_lines :
  resolve self fs file_path = Some (File f) ->
  f_text f = Some content ->
  Z.of_nat (length (readlines content)) <= max_lines ->
  exists r,
    get_file_content self fs file_path max_lines = FileOk r /\
    truncated r = false /\
    showing_lines r = Z.of_nat (length (readlines content)) /\
    fc_total_lines r = Z.of_nat (length (readlines content)).
Proof.
  intros Hres Htext Hmax. unfold get_file_content. rewrite Hres, Htext.
  eexists. split; [reflexivity|]. cbn [truncated showing_lines fc_total_lines].
  rewrite slice_to_all by done. split_and!; [|done..].
  apply bool_decide_eq_false_2. lia.
Qed.

Lemma whole_file_witness :
  exists r,
    get_file_content Scenario.searcher Scenario.on_disk "src/Foo.cs" 100 = FileOk r /\
    truncated r = false /\
    showing_lines r = 6 /\
    fc_total_lines r = 6.
Proof.
  apply (whole_file_not_truncated Scenario.searcher Scenario.on_disk "src/Foo.cs"
           Scenario.foo_cs
           ("namespace App.Models" +:+ Scenario.nl +:+ "{" +:+ Scenario.nl +:+
            "    public class Foo" +:+ Scenario.nl +:+ "    {" +:+ Scenario.nl +:+
            "    }" +:+ Scenario.nl +:+ "}" +:+ Scenario.nl) 100).
  - vm_compute. reflexivity.
  - reflexivity.
  - vm_compute. discriminate.
Defined.

Import Text Regex FS Searcher.
Import Spec RegexFacts ClassMode TextFacts SearchFacts WalkFacts ScanFacts LoopFacts AnalyzeFacts.

(** * The search modes *)

(** ** The wording of the other search modes *)

Module ModeFacts.
Import Text Regex FS Searcher Spec Modes RegexFacts ClassMode TextFacts.

Lemma boundary_rev pre s :
  at_boundary (rev pre) s = true <-> word_at (last pre) ≠ word_at (head s).
Proof.
  pose proof (at_boundary_iff pre s) as H. by rewrite app_nil_r in H.
Qed.

(** Reading a pattern item by item, the text to the left kept in order. *)
Lemma matches_nil ci pre s : Matches ci [] (rev pre) s <-> True.
Proof. split; [done | constructor]. Qed.

Lemma matches_lit ci w r pre s :
  Matches ci (Lit w :: r) (rev pre) s <->
  exists w' s', s = w' ++ s' /\ same_text (negb ci) w (text w') /\
                Matches ci r (rev (pre ++ w')) s'.
Proof.
  split.
  - inversion 1 as [|? ? ? ? b' s' He Hm| | | | | |]; subst.
    apply eat_spec in He as (w' & -> & -> & Hw). exists w', s'.
    rewrite rev_app_distr. split_and!; [done | by apply ch_eq_same | done].
  - intros (w' & s' & -> & Hw & Hm). rewrite rev_app_distr in Hm.
    eapply M_lit; [|exact Hm]. apply eat_spec. exists w'.
    split_and!; [done | done | by apply ch_eq_same].
Qed.

Lemma matches_alt ci ws r pre s :
  Matches ci (Alt ws :: r) (rev pre) s <->
  exists w w' s', w ∈ ws /\ s = w' ++ s' /\ same_text (negb ci) w (text w') /\
                  Matches ci r (rev (pre ++ w')) s'.
Proof.
  split.
  - inversion 1 as [| |? w ? ? ? b' s' Hin He Hm| | | | |]; subst.
    apply eat_spec in He as (w' & -> & -> & Hw). exists w, w', s'.
    rewrite rev_app_distr. split_and!; [done | done | by apply ch_eq_same | done].
  - intros (w & w' & s' & Hin & -> & Hw & Hm). rewrite rev_app_distr in Hm.
    eapply M_alt; [exact Hin | | exact Hm]. apply eat_spec. exists w'.
    split_and!; [done | done | by apply ch_eq_same].
Qed.

Lemma matches_star ci k r pre s :
  Matches ci (Star k :: r) (rev pre) s <->
  exists taken s', s = taken ++ s' /\ Forall (fun c => in_class k c = true) taken /\
                   Matches ci r (rev (pre ++ taken)) s'.
Proof.
  split.
  - inversion 1 as [| | |? ? ? taken s' Ht Hm| | | |]; subst.
    exists taken, s'. by rewrite rev_app_distr.
  - intros (taken & s' & -> & Ht & Hm). rewrite rev_app_distr in Hm. by constructor.
Qed.

Lemma matches_plus ci k r pre s :
  Matches ci (Plus k :: r) (rev pre) s <->
  exists taken s', s = taken ++ s' /\ taken ≠ [] /\
                   Forall (fun c => in_class k c = true) taken /\
                   Matches ci r (rev (pre ++ taken)) s'.
Proof.
  split.
  - inversion 1 as [| | | |? ? ? taken s' Hne Ht Hm| | |]; subst.
    exists taken, s'. by rewrite rev_app_distr.
  - intros (taken & s' & -> & Hne & Ht & Hm). rewrite rev_app_distr in Hm. by constructor.
Qed.

Lemma matches_wordb ci r pre s :
  Matches ci (WordB :: r) (rev pre) s <->
  word_at (last pre) ≠ word_at (head s) /\ Matches ci r (rev pre) s.
Proof.
  rewrite <- boundary_rev. split.
  - by inversion 1.
  - intros [? ?]. by constructor.
Qed.

Lemma matches_open ci r pre s :
  Matches ci (GOpen :: r) (rev pre) s <-> Matches ci r (rev pre) s.
Proof. split; [by inversion 1 | by constructor]. Qed.

Lemma matches_close ci r pre s :
  Matches ci (GClose :: r) (rev pre) s <-> Matches ci r (rev pre) s.
Proof. split; [by inversion 1 | by constructor]. Qed.

(** [re.search] finds the pattern at some position of the line. *)
Lemma search_at cs p line :
  is_Some (re_search (negb cs) p line) <->
  exists pre rest, chars line = pre ++ rest /\ Matches (negb cs) p (rev pre) rest.
Proof.
  unfold re_search. rewrite search_from_Some.
  split; intros (pre & rest & H1 & H2); exists pre, rest;
    rewrite app_nil_r in *; done.
Qed.

Lemma line_text line l : chars line = l <-> line = text l.
Proof.
  split; [intros <-; by rewrite text_chars | intros ->; by rewrite chars_text].
Qed.

Lemma lower_app a b : lower (a +:+ b) = lower a +:+ lower b.
Proof.
  induction a as [|c a IH]; [done|].
  rewrite app_cons. simpl. by rewrite IH, app_cons.
Qed.

Lemma lower_app_inv a : forall s b,
  lower s = a +:+ b -> exists s1 s2, s = s1 +:+ s2 /\ lower s1 = a /\ lower s2 = b.
Proof.
  induction a as [|c a IH]; intros s b H.
  - by exists EmptyString, s.
  - destruct s as [|x s]; [done|]. rewrite app_cons in H. simpl in H.
    injection H as Hc H. apply IH in H as (s1 & s2 & -> & <- & <-).
    exists (String x s1), s2. by rewrite app_cons, <- Hc.
Qed.

(** The parenthesis has no other case. *)
Lemma same_text_paren cs w : same_text cs "(" w -> w = "(".
Proof.
  unfold same_text. destruct cs; [done|].
  destruct w as [|c [|c' w]]; simpl; try done.
  intros [= H]. f_equal. revert H.
  destruct c as [[] [] [] [] [] [] [] []]; vm_compute; congruence.
Qed.



Lemma occurs_contains cs query line :
  occurs cs query line <->
  (if cs then contains query line else contains (lower query) (lower line)) = true.
Proof.
  unfold occurs, same_text. destruct cs; rewrite contains_spec.
  - split.
    + intros (pre & q & post & -> & ->). by exists pre, post.
    + intros (pre & post & ->). by exists pre, query, post.
  - split.
    + intros (pre & q & post & -> & ->). exists (lower pre), (lower post).
      by rewrite !lower_app.
    + intros (pre & post & H).
      apply lower_app_inv in H as (s1 & s2 & -> & <- & H).
      apply lower_app_inv in H as (q & s3 & -> & Hq & <-).
      by exists s1, q, s3.
Qed.

(** The first pattern of the method mode at one position. *)
Lemma call_pattern ci query pre rest :
  Matches ci [WordB; Lit query; Star CSpace; Lit "("] (rev pre) rest <->
  exists q ws post,
    rest = q ++ ws ++ chars "(" ++ post /\
    same_text (negb ci) query (text q) /\
    Forall (fun c => is_space c = true) ws /\
    word_at (last pre) ≠ word_at (head rest).
Proof.
  rewrite matches_wordb. split.
  - intros [Hb Hm]. apply matches_lit in Hm as (q & s1 & -> & Hq & Hm).
    apply matches_star in Hm as (ws & s2 & -> & Hws & Hm).
    apply matches_lit in Hm as (par & post & -> & Hp & _).
    apply same_text_paren, (f_equal chars) in Hp. rewrite chars_text in Hp. subst par.
    by exists q, ws, post.
  - intros (q & ws & post & -> & Hq & Hws & Hb). split; [done|].
    apply matches_lit. exists q, (ws ++ chars "(" ++ post). split_and!; [done..|].
    apply matches_star. exists ws, (chars "(" ++ post). split_and!; [done..|].
    apply matches_lit. exists (chars "("), post. split_and!; [done | | constructor].
    rewrite text_chars. unfold same_text. by destruct (negb ci).
Qed.

Lemma call_search cs query line :
  is_Some (re_search (negb cs) [WordB; Lit query; Star CSpace; Lit "("] line) <->
  call_site cs query line.
Proof.
  rewrite search_at. unfold call_site, word_boundary, blanks. split.
  - intros (pre & rest & Hl & Hm).
    apply call_pattern in Hm as (q & ws & post & -> & Hq & Hws & Hb).
    rewrite negb_involutive in Hq.
    exists (text pre), (text q), (text ws), (text post). split_and!.
    + apply line_text in Hl. by rewrite Hl, !text_app, text_chars.
    + done.
    + by rewrite !chars_app, !chars_text.
    + by rewrite chars_text.
  - intros (pre & q & ws & post & -> & Hq & Hb & Hws).
    exists (chars pre), (chars (q +:+ ws +:+ "(" +:+ post)). split; [by rewrite chars_app|].
    apply call_pattern. exists (chars q), (chars ws), (chars post).
    rewrite negb_involutive, text_chars, !chars_app. by rewrite !chars_app in Hb.
Qed.

(** The second pattern of the method mode contains the first. *)
Lemma modifier_pattern_redundant cs query line :
  is_Some (re_search (negb cs)
             [GOpen; Alt ["public"; "private"; "protected"; "internal"; "static"]; GClose;
              Star CAny; WordB; Lit query; Star CSpace; Lit "("] line) ->
  is_Some (re_search (negb cs) [WordB; Lit query; Star CSpace; Lit "("] line).
Proof.
  rewrite !search_at. intros (pre & rest & Hl & Hm).
  apply matches_open, matches_alt in Hm as (w & w' & s1 & _ & -> & _ & Hm).
  apply matches_close, matches_star in Hm as (taken & s2 & -> & _ & Hm).
  exists ((pre ++ w') ++ taken), s2. split; [|done].
  by rewrite Hl, <- !app_assoc.
Qed.

Lemma app_assoc_s a b c : (a +:+ b) +:+ c = a +:+ b +:+ c.
Proof. induction a as [|x a IH]; [done|]. by rewrite !app_cons, IH. Qed.

(** The first pattern of the variable mode. *)
Lemma whole_word_search cs query line :
  is_Some (re_search (negb cs) [WordB; Lit query; WordB] line) <->
  whole_word cs query line.
Proof.
  rewrite search_at. unfold whole_word, word_boundary. split.
  - intros (pre & rest & Hl & Hm).
    apply matches_wordb in Hm as [Hb1 Hm].
    apply matches_lit in Hm as (q & post & -> & Hq & Hm).
    apply matches_wordb in Hm as [Hb2 _]. rewrite negb_involutive in Hq.
    exists (text pre), (text q), (text post). split_and!.
    + apply line_text in Hl. by rewrite Hl, !text_app.
    + done.
    + by rewrite !chars_app, !chars_text.
    + by rewrite !chars_app, !chars_text.
  - intros (pre & q & post & -> & Hq & Hb1 & Hb2).
    exists (chars pre), (chars (q +:+ post)). split; [by rewrite chars_app|].
    rewrite !chars_app in *.
    apply matches_wordb. split; [done|].
    apply matches_lit. exists (chars q), (chars post).
    rewrite negb_involutive, text_chars. split_and!; [done..|].
    apply matches_wordb. split; [done | constructor].
Qed.

(** The second pattern of the variable mode. *)
Lemma typed_search cs query line :
  is_Some (re_search (negb cs)
             [GOpen; Alt type_keywords; GClose; Plus CSpace; Lit query; WordB] line) <->
  typed_declaration cs query line.
Proof.
  rewrite search_at. unfold typed_declaration, word_boundary, whitespace. split.
  - intros (pre & rest & Hl & Hm).
    apply matches_open, matches_alt in Hm as (keyword & kw & s1 & Hin & -> & Hkw & Hm).
    apply matches_close, matches_plus in Hm as (ws & s2 & -> & Hne & Hws & Hm).
    apply matches_lit in Hm as (q & post & -> & Hq & Hm).
    apply matches_wordb in Hm as [Hb _]. rewrite negb_involutive in Hkw, Hq.
    exists keyword, (text pre), (text kw), (text ws), (text q), (text post). split_and!.
    + done.
    + apply line_text in Hl. by rewrite Hl, !text_app.
    + done.
    + by destruct ws.
    + by rewrite chars_text.
    + done.
    + rewrite !chars_app, !chars_text. by rewrite <- !app_assoc in Hb.
  - intros (keyword & pre & kw & ws & q & post & Hin & -> & Hkw & [Hne Hws] & Hq & Hb).
    exists (chars pre), (chars (kw +:+ ws +:+ q +:+ post)). split; [by rewrite chars_app|].
    rewrite !chars_app in *.
    apply matches_open, matches_alt. exists keyword, (chars kw), (chars ws ++ chars q ++ chars post).
    rewrite negb_involutive, text_chars. split_and!; [done..|].
    apply matches_close, matches_plus. exists (chars ws), (chars q ++ chars post).
    split_and!; [done | by destruct ws | done |].
    apply matches_lit. exists (chars q), (chars post).
    rewrite negb_involutive, text_chars. split_and!; [done..|].
    apply matches_wordb. split; [|constructor]. by rewrite <- !app_assoc.
Qed.


(** The two patterns of the variable mode. *)
Lemma variable_patterns cs query line :
  line_matches (_get_search_patterns query "variable") cs line = true <->
  is_Some (re_search (negb cs) [WordB; Lit query; WordB] line) \/
  is_Some (re_search (negb cs)
             [GOpen; Alt type_keywords; GClose; Plus CSpace; Lit query; WordB] line).
Proof.
  unfold line_matches.
  change (_get_search_patterns query "variable") with
    [ [WordB; Lit query; WordB];
      [GOpen; Alt type_keywords; GClose; Plus CSpace; Lit query; WordB] ].
  cbn [existsb]. rewrite !orb_true_iff, !bool_decide_eq_true.
  split; [intros [H|[H|H]]; auto; done | intros [H|H]; auto].
Qed.
End ModeFacts.

Import Spec Modes ModeFacts.


(** X2: in method mode a line matches exactly when the query, starting at
    a word boundary, is followed by optional whitespace and an opening
    parenthesis; the pattern that asks for a leading access modifier adds
    no line. *)
Theorem method_mode_characterised case_sensitive query line :
  line_matches (_get_search_patterns query "method") case_sensitive line = true <->
  call_site case_sensitive query line.
Proof.
  unfold line_matches.
  change (_get_search_patterns query "method") with
    [ [WordB; Lit query; Star CSpace; Lit "("];
      [GOpen; Alt ["public"; "private"; "protected"; "internal"; "static"]; GClose;
       Star CAny; WordB; Lit query; Star CSpace; Lit "("] ].
  cbn [existsb]. rewrite !orb_true_iff, !bool_decide_eq_true, <- call_search. split.
  - intros [H|[H|H]]; [done | by apply modifier_pattern_redundant | done].
  - by left.
Qed.

(** X3: in variable mode a line matches exactly when it holds the query
    between two word boundaries, or a type keyword (var, int, string, bool,
    double, float, decimal, object) followed by whitespace and the query
    ending at a word boundary. *)
Theorem variable_mode_characterised case_sensitive query line :
  line_matches (_get_search_patterns query "variable") case_sensitive line = true <->
  whole_word case_sensitive query line \/ typed_declaration case_sensitive query line.
Proof.
  by rewrite variable_patterns, whole_word_search, typed_search.
Qed.



(** * The names extracted by the analysis *)

Module CaptureFacts.
Import Text Regex FS Searcher Spec Names RegexFacts ClassMode.

Section Loops.
Context {R : Type} (cont : list ascii -> list ascii -> option R).

Lemma star_loop_result k : forall s before r,
  star_loop k cont before s = Some r ->
  exists taken s', s = taken ++ s' /\
    Forall (fun c => in_class k c = true) taken /\
    cont (rev taken ++ before) s' = Some r.
Proof.
  induction s as [|c s IH]; intros before r; simpl.
  - intros H. exists [], []. split_and!; [done | constructor | done].
  - destruct (in_class k c) eqn:E.
    + destruct (star_loop k cont (c :: before) s) as [r'|] eqn:Hl.
      * intros [= <-]. apply IH in Hl as (taken & s' & -> & Ht & Hc).
        exists (c :: taken), s'. simpl. rewrite <- app_assoc.
        split_and!; [done | by constructor | done].
      * intros H. exists [], (c :: s). split_and!; [done | constructor | done].
    + intros H. exists [], (c :: s). split_and!; [done | constructor | done].
Qed.

Lemma alt_loop_result ci before s : forall ws r,
  alt_loop ci cont before s ws = Some r ->
  exists w b' s', w ∈ ws /\ eat ci (chars w) before s = Some (b', s') /\
                  cont b' s' = Some r.
Proof.
  induction ws as [|w ws IH]; intros r; simpl; [done|].
  destruct (eat ci (chars w) before s) as [[b' s']|] eqn:He.
  - destruct (cont b' s') as [r'|] eqn:Hc.
    + intros [= <-]. exists w, b', s'. split_and!; [left | done | done].
    + intros H. apply IH in H as (w0 & b0 & s0 & Hin & H1 & H2).
      exists w0, b0, s0. split_and!; [by right | done | done].
  - intros H. apply IH in H as (w0 & b0 & s0 & Hin & H1 & H2).
    exists w0, b0, s0. split_and!; [by right | done | done].
Qed.
End Loops.

Lemma run_open ci r mark caps before s :
  run ci (GOpen :: r) mark caps before s = run ci r (length before) caps before s.
Proof. reflexivity. Qed.

Lemma run_close ci r mark caps before s :
  run ci (GClose :: r) mark caps before s =
  run ci r mark (text (rev (take (length before - mark) before)) :: caps) before s.
Proof. reflexivity. Qed.

(** An item other than a parenthesis leaves the groups as they are. *)
Lemma run_plain ci it r mark caps before s res :
  plain it ->
  run ci (it :: r) mark caps before s = Some res ->
  exists b' s', run ci r mark caps b' s' = Some res.
Proof.
  destruct it as [w|ws|k|k| | |]; simpl; try done; intros _.
  - destruct (eat ci (chars w) before s) as [[b' s']|]; [eauto | done].
  - intros H. apply alt_loop_result in H as (w & b' & s' & _ & _ & H). eauto.
  - intros H. apply star_loop_result in H as (taken & s' & _ & _ & H). eauto.
  - destruct s as [|c s]; [done|]. destruct (in_class k c); [|done].
    intros H. apply star_loop_result in H as (taken & s' & _ & _ & H). eauto.
  - destruct (at_boundary before s); [eauto | done].
Qed.

(** The groups closed before a point are a prefix of the final groups. *)
Lemma run_caps ci p : forall mark caps before s res,
  run ci p mark caps before s = Some res -> exists later, res = rev caps ++ later.
Proof.
  induction p as [|it r IH]; intros mark caps before s res.
  - simpl. intros [= <-]. exists []. by rewrite app_nil_r.
  - destruct it as [w|ws|k|k| | |].
    + intros H. apply run_plain in H as (? & ? & H); [by eapply IH | done].
    + intros H. apply run_plain in H as (? & ? & H); [by eapply IH | done].
    + intros H. apply run_plain in H as (? & ? & H); [by eapply IH | done].
    + intros H. apply run_plain in H as (? & ? & H); [by eapply IH | done].
    + intros H. apply run_plain in H as (? & ? & H); [by eapply IH | done].
    + rewrite run_open. apply IH.
    + rewrite run_close. intros H. apply IH in H as [later ->].
      simpl. rewrite <- app_assoc. by eexists.
Qed.

(** A group around [k+] captures a non-empty run of the class. *)
Lemma run_group ci k r mark caps before s res :
  run ci (GOpen :: Plus k :: GClose :: r) mark caps before s = Some res ->
  exists taken, taken ≠ [] /\ Forall (fun c => in_class k c = true) taken /\
                res !! length caps = Some (text taken).
Proof.
  rewrite run_open. cbn [run].
  destruct s as [|c s]; [done|]. destruct (in_class k c) eqn:E; [|done].
  intros H. apply star_loop_result in H as (taken & s' & -> & Ht & H).
  cbn beta in H. apply run_caps in H as [later ->].
  exists (c :: taken). split_and!; [done | by constructor |].
  assert (take (length (rev taken ++ c :: before) - length before)
               (rev taken ++ c :: before) = rev taken ++ [c]) as ->.
  { replace (length (rev taken ++ c :: before) - length before)%nat
      with (length (rev taken ++ [c])) by (rewrite !length_app; simpl; lia).
    change (c :: before) with ([c] ++ before).
    by rewrite (app_assoc (rev taken) [c] before), take_app_length. }
  rewrite rev_app_distr, rev_involutive. cbn [rev app].
  rewrite <- app_assoc. rewrite lookup_app_r by (rewrite length_rev; lia).
  rewrite length_rev. by replace (length caps - length caps)%nat with 0%nat by lia.
Qed.

Lemma text_identifier k taken :
  taken ≠ [] -> Forall (fun c => in_class k c = true) taken ->
  text taken ≠ EmptyString /\ Forall (fun c => in_class k c = true) (chars (text taken)).
Proof. intros Hne Ht. rewrite chars_text. split; [by destruct taken | done]. Qed.

(** What the four patterns of the analysis capture. *)
Lemma namespace_capture line caps :
  re_match false namespace_re line = Some caps -> dotted_name (group 1 caps).
Proof.
  unfold re_match, namespace_re. intros H.
  do 2 (apply run_plain in H as (? & ? & H); [|done]).
  apply run_group in H as (taken & Hne & Ht & Hg).
  unfold group. simpl in Hg |- *. rewrite Hg. simpl.
  by apply (text_identifier CWordDot taken).
Qed.

Lemma class_capture line caps :
  re_match false class_re line = Some caps -> identifier (group 1 caps).
Proof.
  unfold re_match, class_re. intros H.
  do 3 (apply run_plain in H as (? & ? & H); [|done]).
  apply run_group in H as (taken & Hne & Ht & Hg).
  unfold group. simpl in Hg |- *. rewrite Hg. simpl.
  by apply (text_identifier CWord taken).
Qed.

Lemma interface_capture line caps :
  re_match false interface_re line = Some caps -> identifier (group 1 caps).
Proof.
  unfold re_match, interface_re. intros H.
  do 3 (apply run_plain in H as (? & ? & H); [|done]).
  apply run_group in H as (taken & Hne & Ht & Hg).
  unfold group. simpl in Hg |- *. rewrite Hg. simpl.
  by apply (text_identifier CWord taken).
Qed.

Lemma method_capture line caps :
  re_match false method_re line = Some caps -> identifier (group 2 caps).
Proof.
  unfold re_match, method_re. intros H.
  apply run_plain in H as (? & ? & H); [|done]. rewrite run_open in H.
  apply run_plain in H as (? & ? & H); [|done]. rewrite run_close in H.
  do 2 (apply run_plain in H as (? & ? & H); [|done]).
  apply run_group in H as (taken & Hne & Ht & Hg).
  unfold group. simpl in Hg |- *. rewrite Hg. simpl.
  by apply (text_identifier CWord taken).
Qed.
End CaptureFacts.

Module NameFacts.
Import Text Regex FS Searcher Spec Names CaptureFacts TextFacts AnalyzeFacts.

(** What one line does to each collection of the accumulator. *)
Lemma line_namespaces fp a raw :
  namespaces (analyze_line fp a raw) =
  match re_match false namespace_re (strip raw) with
  | Some c => {[group 1 c]} ∪ namespaces a
  | None => namespaces a
  end.
Proof.
  unfold analyze_line.
  destruct (startswith _ _ && _), (re_match false namespace_re _),
    (re_match false class_re _), (re_match false interface_re _),
    (re_match false method_re _); simpl; try done;
    destruct (_ <? 100); try case_bool_decide; done.
Qed.

Lemma line_classes fp a raw :
  classes (analyze_line fp a raw) =
  match re_match false class_re (strip raw) with
  | Some c => {[group 1 c]} ∪ classes a
  | None => classes a
  end.
Proof.
  unfold analyze_line.
  destruct (startswith _ _ && _), (re_match false namespace_re _),
    (re_match false class_re _), (re_match false interface_re _),
    (re_match false method_re _); simpl; try done;
    destruct (_ <? 100); try case_bool_decide; done.
Qed.

Lemma line_interfaces fp a raw :
  interfaces (analyze_line fp a raw) =
  match re_match false interface_re (strip raw) with
  | Some c => {[group 1 c]} ∪ interfaces a
  | None => interfaces a
  end.
Proof.
  unfold analyze_line.
  destruct (startswith _ _ && _), (re_match false namespace_re _),
    (re_match false class_re _), (re_match false interface_re _),
    (re_match false method_re _); simpl; try done;
    destruct (_ <? 100); try case_bool_decide; done.
Qed.

Lemma line_using fp a raw :
  using_statements (analyze_line fp a raw) =
  if startswith (strip raw) "using " && negb (startswith (strip raw) "using (")
  then {[strip raw]} ∪ using_statements a
  else using_statements a.
Proof.
  unfold analyze_line.
  destruct (startswith _ _ && _), (re_match false namespace_re _),
    (re_match false class_re _), (re_match false interface_re _),
    (re_match false method_re _); simpl; try done;
    destruct (_ <? 100); try case_bool_decide; done.
Qed.

Lemma line_methods fp a raw :
  methods (analyze_line fp a raw) =
  match re_match false method_re (strip raw) with
  | Some c =>
      if Z.of_nat (length (methods a)) <? 100 then
        if bool_decide (group 2 c ∉ control_words)
        then methods a ++ [ {| name := group 2 c; file := fp |} ]
        else methods a
      else methods a
  | None => methods a
  end.
Proof.
  unfold analyze_line, control_words.
  destruct (startswith _ _ && _), (re_match false namespace_re _),
    (re_match false class_re _), (re_match false interface_re _),
    (re_match false method_re _); simpl; try done;
    destruct (_ <? 100); try case_bool_decide; done.
Qed.

(** A property kept by every line and by the recording of a project file
    holds after any sequence of steps. *)
Lemma steps_invariant (I : Analysis -> Prop) :
  (forall fp a raw, I a -> I (analyze_line fp a raw)) ->
  (forall fp a, I a -> I (append_project_file fp a)) ->
  forall steps a, I a -> I (fold_left apply_step steps a).
Proof.
  intros Hline Hproj. induction steps as [|[fp raw|fp] steps IH]; intros a Ha; simpl;
    [done | apply IH, Hline, Ha | apply IH, Hproj, Ha].
Qed.

Lemma well_named_line fp a raw : well_named a -> well_named (analyze_line fp a raw).
Proof.
  intros (Hn & Hc & Hi & Hm & Hu). split_and!.
  - intros x. rewrite line_namespaces.
    destruct (re_match false namespace_re (strip raw)) as [c|] eqn:E; [|apply Hn].
    rewrite elem_of_union, elem_of_singleton. intros [->|H]; [|by apply Hn].
    by eapply namespace_capture.
  - intros x. rewrite line_classes.
    destruct (re_match false class_re (strip raw)) as [c|] eqn:E; [|apply Hc].
    rewrite elem_of_union, elem_of_singleton. intros [->|H]; [|by apply Hc].
    by eapply class_capture.
  - intros x. rewrite line_interfaces.
    destruct (re_match false interface_re (strip raw)) as [c|] eqn:E; [|apply Hi].
    rewrite elem_of_union, elem_of_singleton. intros [->|H]; [|by apply Hi].
    by eapply interface_capture.
  - intros m. rewrite line_methods.
    destruct (re_match false method_re (strip raw)) as [c|] eqn:E; [|apply Hm].
    destruct (_ <? 100); [|apply Hm]. case_bool_decide as Hw; [|apply Hm].
    rewrite elem_of_app, list_elem_of_singleton. intros [H| ->]; [by apply Hm|].
    simpl. split; [by eapply method_capture | done].
  - intros x. rewrite line_using.
    destruct (startswith (strip raw) "using " && _) eqn:E; [|apply Hu].
    rewrite elem_of_union, elem_of_singleton. intros [->|H]; [|by apply Hu].
    apply andb_true_iff in E as [E1 E2]. by apply negb_true_iff in E2.
Qed.

Lemma well_named_run self fs : well_named (analyze_run self fs).1.
Proof.
  destruct (analyze_run_steps self fs) as [-> _].
  apply steps_invariant.
  - apply well_named_line.
  - by intros fp a.
  - split_and!; intros x Hx; (by apply elem_of_empty in Hx) || by apply elem_of_nil in Hx.
Qed.
End NameFacts.

Import Spec Names NameFacts TextFacts.

(** X5: every class, interface and method name exported by the analysis is
    a non-empty run of word characters, and every namespace a non-empty run
    of word characters and dots. *)
Theorem analysis_names_are_identifiers self (fs : disk) :
  let r := analyze_project_structure self fs in
  (forall x, x ∈ out_namespaces r -> dotted_name x) /\
  (forall x, x ∈ out_classes r -> identifier x) /\
  (forall x, x ∈ out_interfaces r -> identifier x) /\
  (forall m, m ∈ out_methods r -> identifier (name m)).
Proof.
  destruct (well_named_run self fs) as (Hn & Hc & Hi & Hm & _).
  unfold analyze_project_structure, export. cbn zeta.
  cbn [out_namespaces out_classes out_interfaces out_methods].
  split_and!.
  - intros x Hx. by apply Hn, elem_of_elements.
  - intros x Hx. by apply Hc, elem_of_elements.
  - intros x Hx. by apply Hi, elem_of_elements.
  - intros m Hx. by apply Hm, (slice_to_subseteq _ 50).
Qed.

Lemma analysis_names_witness : identifier "Foo".
Proof.
  apply (proj1 (proj2 (analysis_names_are_identifiers Scenario.searcher Scenario.on_disk))).
  vm_compute. by left.
Defined.

(** X6: no method descriptor exported by the analysis is named if, for,
    while, switch or using. *)
Theorem method_names_exclude_control_words self (fs : disk) m :
  m ∈ out_methods (analyze_project_structure self fs) ->
  name m ∉ control_words.
Proof.
  destruct (well_named_run self fs) as (_ & _ & _ & Hm & _).
  intros Hx. by apply Hm, (slice_to_subseteq _ 50).
Qed.

Lemma method_names_witness :
  name {| name := "Get"; file := ["Svc.cs"] |} ∉ control_words.
Proof.
  apply (method_names_exclude_control_words Samples.svc_searcher Samples.svc_disk).
  vm_compute. by left.
Defined.

(** X7: every using statement exported by the analysis starts with
    [using ] and not with [using (]. *)
Theorem using_statements_shape self (fs : disk) x :
  x ∈ out_using_statements (analyze_project_structure self fs) ->
  startswith x "using " = true /\ startswith x "using (" = false.
Proof.
  destruct (well_named_run self fs) as (_ & _ & _ & _ & Hu).
  intros Hx. by apply Hu, elem_of_elements.
Qed.

Lemma using_statements_witness :
  startswith "using System;" "using " = true /\ startswith "using System;" "using (" = false.
Proof.
  apply (using_statements_shape Samples.svc_searcher Samples.svc_disk).
  vm_compute. by left.
Defined.

(** * The traversal and the scan *)

Module TreeFacts.
Import Text Regex FS Searcher Spec Tree TextFacts WalkFacts.

Lemma walk_sound keep n : forall rp e,
  e ∈ walk keep rp n -> e ∈ walk (fun _ => true) rp n.
Proof.
  induction n as [f|name children IH] using node_ind; intros rp e; simpl; [done|].
  rewrite !elem_of_cons. intros [->|Hin]; [by left|]. right.
  apply list_elem_of_In, in_flat_map in Hin as (ch & Hch & Hin).
  apply list_elem_of_In, in_flat_map. exists ch. split; [done|].
  apply list_elem_of_In in Hch, Hin. apply list_elem_of_In.
  destruct ch as [f|d sub]; [done|].
  destruct (keep (rp ++ [d])); [|by apply elem_of_nil in Hin].
  rewrite Forall_forall in IH. by apply IH.
Qed.

Lemma walk_complete keep n : forall rp ds fl,
  (rp ++ ds, fl) ∈ walk (fun _ => true) rp n ->
  (forall k, (k < length ds)%nat -> keep (rp ++ take (S k) ds) = true) ->
  (rp ++ ds, fl) ∈ walk keep rp n.
Proof.
  induction n as [f|name children IH] using node_ind; intros rp ds fl; simpl; [done|].
  rewrite !elem_of_cons. intros [E|Hin] Hk; [by left|]. right.
  apply list_elem_of_In, in_flat_map in Hin as (ch & Hch & Hin).
  apply list_elem_of_In, in_flat_map. exists ch. split; [done|].
  apply list_elem_of_In in Hch, Hin. apply list_elem_of_In.
  destruct ch as [f|d sub]; [done|].
  pose proof Hin as Hp. apply walk_kept in Hp as (ds' & Hq & _).
  rewrite <- app_assoc in Hq. apply app_inv_head in Hq. subst ds.
  assert (keep (rp ++ [d]) = true) as -> by (apply (Hk 0%nat); simpl; lia).
  rewrite Forall_forall in IH. specialize (IH _ Hch (rp ++ [d]) ds' fl).
  rewrite <- app_assoc in IH. apply IH; [done|].
  intros k Hlt. specialize (Hk (S k)). simpl in Hk. rewrite <- app_assoc. apply Hk. lia.
Qed.

Section Config.
Variable self : CSharpCodeSearcher.

Lemma kept_unskipped (ds : list string) :
  (forall k, (k < length ds)%nat ->
             negb (_should_skip_folder self ([] ++ take (S k) ds)) = true) <->
  unskipped self ds.
Proof.
  unfold unskipped. split.
  - intros Hk d fragment Hd Hf Hc. apply list_elem_of_lookup in Hd as [k Hd].
    specialize (Hk k (lookup_lt_Some _ _ _ Hd)).
    apply negb_true_iff, not_true_iff_false in Hk. apply Hk.
    apply skip_folder_spec. exists fragment. split; [done|].
    simpl. by rewrite (take_S_r _ _ _ Hd), path_name_snoc.
  - intros Hu k Hlt. apply negb_true_iff, not_true_iff_false. intros Hs.
    apply skip_folder_spec in Hs as (fragment & Hf & Hc).
    destruct (lookup_lt_is_Some_2 ds k Hlt) as [d Hd].
    simpl in Hc. rewrite (take_S_r _ _ _ Hd), path_name_snoc in Hc.
    apply (Hu d fragment); [|done..]. apply list_elem_of_lookup. by exists k.
Qed.

(** The directories visited by the pruned traversal. *)
Lemma pruned_entries_sound fs q fl :
  (q, fl) ∈ pruned_walk self fs ->
  (q, fl) ∈ tree_walk (fs !! code_folder_path self) /\ unskipped self q.
Proof.
  unfold pruned_walk, tree_walk, walk_root.
  destruct (fs !! code_folder_path self) as [n|]; [|by intros ?%elem_of_nil].
  intros H. split; [by eapply walk_sound|].
  apply walk_kept in H as (ds & -> & Hk). by apply kept_unskipped.
Qed.

Lemma pruned_entries_complete fs q fl :
  (q, fl) ∈ tree_walk (fs !! code_folder_path self) -> unskipped self q ->
  (q, fl) ∈ pruned_walk self fs.
Proof.
  unfold pruned_walk, tree_walk, walk_root.
  destruct (fs !! code_folder_path self) as [n|]; [|by intros ?%elem_of_nil].
  intros H Hu. apply (walk_complete _ n [] q fl H). by apply kept_unskipped.
Qed.

Lemma files_of_entries entries pf :
  pf ∈ walk_files entries <->
  exists q fl, (q, fl) ∈ entries /\ pf.2 ∈ fl /\ pf.1 = q ++ [f_name pf.2].
Proof.
  unfold walk_files. rewrite list_elem_of_In, in_flat_map. split.
  - intros ([q fl] & He & Hin). apply list_elem_of_In in He, Hin. simpl in Hin.
    apply list_elem_of_fmap in Hin as (f & -> & Hf). by exists q, fl.
  - intros (q & fl & He & Hf & Hp). exists (q, fl). split; [by apply list_elem_of_In|].
    apply list_elem_of_In. simpl. apply list_elem_of_fmap. exists pf.2.
    split; [|done]. destruct pf as [p f]. simpl in *. by subst p.
Qed.

(** The files visited by the pruned traversal. *)
Lemma pruned_files fs pf :
  pf ∈ walk_files (pruned_walk self fs) <->
  pf ∈ tree_files (fs !! code_folder_path self) /\ ~ under_skipped self pf.1.
Proof.
  unfold tree_files. rewrite !files_of_entries. destruct pf as [p f]. simpl. split.
  - intros (q & fl & He & Hf & ->). apply pruned_entries_sound in He as [He Hu]. split.
    + by exists q, fl.
    + intros (d & fragment & Hd & Hfr & Hc).
      rewrite parents_snoc in Hd. by apply (Hu d fragment).
  - intros [(q & fl & He & Hf & ->) Hu]. exists q, fl. split_and!; [|done..].
    apply pruned_entries_complete; [done|].
    intros d fragment Hd Hfr Hc. apply Hu. exists d, fragment.
    rewrite parents_snoc. done.
Qed.
End Config.
End TreeFacts.

Import Spec Tree TreeFacts WalkFacts ScanFacts AnalyzeFacts.

(** X8: the traversal visits a directory of the tree exactly when no
    directory on its path below the root has a name that contains a
    skip-fragment, case-insensitively. *)
Theorem pruned_walk_visits_exactly self (fs : disk) q fl :
  (q, fl) ∈ pruned_walk self fs <->
  (q, fl) ∈ tree_walk (fs !! code_folder_path self) /\
  forall d fragment, d ∈ q -> fragment ∈ skip_folders self -> ~ icontains fragment d.
Proof.
  split.
  - apply pruned_entries_sound.
  - intros [Hw Hu]. by apply pruned_entries_complete.
Qed.

(** X9: over an existing root, the scan lists a path under an extension
    exactly when the extension is the lower-cased suffix of the path and
    the path is that of a file of the tree that lies under no skipped
    directory, has an allowed extension and a size within the ceiling. *)
Theorem scan_lists_exactly self (fs : disk) top :
  fs !! code_folder_path self = Some top ->
  exists r, scan_codebase self fs = Returned r /\
    (forall ext p,
        listed (summary r) ext p <->
        ext = key p /\
        exists f, (p, f) ∈ tree_files (Some top) /\
                  ~ under_skipped self p /\ acceptable self (p, f)).
Proof.
  intros Htop. pose proof (scan_spec self fs) as Hs. rewrite Htop in Hs.
  destruct Hs as (r & Hr & Hl & _). exists r. split; [done|].
  intros ext p. rewrite Hl. unfold eligible.
  split; intros [-> (f & Hf)]; (split; [done|]); exists f.
  - apply list_elem_of_filter in Hf as [Hi Hw].
    apply pruned_files in Hw as [Hw Hu]. rewrite Htop in Hw.
    split_and!; [done | done | by apply include_spec].
  - destruct Hf as (Hw & Hu & Ha). apply list_elem_of_filter.
    split; [by apply include_spec|]. apply pruned_files. by rewrite Htop.
Qed.

Lemma scan_lists_witness :
  exists r, scan_codebase Scenario.searcher Scenario.on_disk = Returned r /\
    (forall ext p,
        listed (summary r) ext p <->
        ext = key p /\
        exists f, (p, f) ∈ tree_files (Some Scenario.project) /\
                  ~ under_skipped Scenario.searcher p /\
                  acceptable Scenario.searcher (p, f)).
Proof.
  apply (scan_lists_exactly Scenario.searcher Scenario.on_disk Scenario.project).
  vm_compute. reflexivity.
Defined.

(** X10: the analysis opens exactly the files of the tree whose
    lower-cased suffix is [.cs] and that lie under no skipped directory,
    whatever their size and the configured extensions. *)
Theorem analysis_opens_exactly self (fs : disk) pf :
  pf ∈ (analyze_run self fs).2 <->
  pf ∈ tree_files (fs !! code_folder_path self) /\
  ~ under_skipped self pf.1 /\ is_cs pf.
Proof.
  destruct (analyze_run_steps self fs) as [_ ->].
  rewrite list_elem_of_filter, pruned_files. tauto.
Qed.

Module CountFacts.
Import Text Regex FS Searcher Spec Tree TextFacts WalkFacts ScanFacts.

Lemma listed_count_fresh k l (m : gmap string (list Path)) :
  m !! k = None -> listed_count (<[k:=l]> m) = Z.of_nat (length l) + listed_count m.
Proof.
  intros Hk. unfold listed_count. rewrite map_fold_insert_L; [done | | done].
  intros j1 j2 z1 z2 y _ _ _. lia.
Qed.

Lemma listed_count_insert k l (m : gmap string (list Path)) :
  listed_count (<[k:=l]> m) =
  Z.of_nat (length l) + listed_count m - Z.of_nat (length (default [] (m !! k))).
Proof.
  rewrite <- insert_delete_eq, listed_count_fresh by apply lookup_delete_eq.
  destruct (m !! k) as [l0|] eqn:E; simpl.
  - rewrite <- (insert_delete_id m k l0 E) at 2.
    rewrite listed_count_fresh by apply lookup_delete_eq. lia.
  - rewrite delete_id by done. lia.
Qed.

Lemma scan_file_tallied self rp st f :
  tallied st -> tallied (scan_file self rp st f).
Proof.
  intros [Hc Hne]. unfold scan_file.
  destruct (_should_include_file self (rp ++ [f_name f]) f); [|done].
  set (k := lower (suffix (path_name (rp ++ [f_name f])))).
  set (p := rp ++ [f_name f]).
  assert (alter (fun l => l ++ [p]) k
            match st.1 !! k with Some _ => st.1 | None => <[k:=[]]> st.1 end
          = <[k := default [] (st.1 !! k) ++ [p]]> st.1) as ->.
  { destruct (st.1 !! k) as [l0|] eqn:E; simpl.
    - rewrite <- (insert_id st.1 k l0 E) at 1. by rewrite alter_insert_eq.
    - by rewrite alter_insert_eq. }
  split; cbn [fst snd].
  - rewrite listed_count_insert, length_app, Hc. cbn [length].
    unfold Path. lia.
  - intros ext l. destruct (decide (ext = k)) as [->|Hx].
    + rewrite lookup_insert_eq. intros [= <-]. by destruct (default [] (st.1 !! k)).
    + rewrite lookup_insert_ne by done. apply Hne.
Qed.

Lemma scan_tallied self fs r :
  scan_codebase self fs = Returned r ->
  total_files r = listed_count (summary r) /\
  forall ext l, summary r !! ext = Some l -> l ≠ [].
Proof.
  unfold scan_codebase. destruct (fs !! code_folder_path self); [|done].
  intros [= <-]. simpl.
  assert (forall entries st, tallied st -> tallied (fold_left (scan_entry self) entries st)) as H.
  { induction entries as [|e entries IH]; intros st Hst; simpl; [done|].
    apply IH. unfold scan_entry. revert st Hst.
    induction e.2 as [|f fl IHf]; intros st Hst; simpl; [done|].
    by apply IHf, scan_file_tallied. }
  apply H. split; [done|]. intros ext l Hl. cbn [fst] in Hl. by rewrite lookup_empty in Hl.
Qed.
End CountFacts.

Import CountFacts.

(** X11: when the scan returns, [total_files] is the sum of the lengths
    of the lists of the summary, no list of the summary is empty, and every
    key is the lower-cased form of a configured extension. *)
Theorem scan_summary_counts self (fs : disk) r :
  scan_codebase self fs = Returned r ->
  total_files r = listed_count (summary r) /\
  forall ext l, summary r !! ext = Some l ->
    l ≠ [] /\ exists e, e ∈ file_extensions self /\ ext = lower e.
Proof.
  intros Hr. destruct (scan_tallied self fs r Hr) as [Hc Hne]. split; [done|].
  intros ext l Hl. split; [by eapply Hne|].
  destruct l as [|p l]; [by apply Hne in Hl|].
  pose proof (scan_spec self fs) as Hs.
  destruct (fs !! code_folder_path self); [|destruct Hs; congruence].
  destruct Hs as (r' & Hr' & Hlist & _). rewrite Hr in Hr'. injection Hr' as <-.
  destruct (proj1 (Hlist ext p)) as (-> & f & Hf).
  { exists (p :: l). split; [done | by left]. }
  apply list_elem_of_filter in Hf as [Hi _].
  apply include_spec in Hi as [(e & He & Heq) _]. by exists e.
Qed.

Lemma scan_summary_witness :
  let r := {| summary := {[ ".cs" := [["src"; "Foo.cs"]] ]}; total_files := 1;
              project_root := "/proj" |} in
  total_files r = listed_count (summary r) /\
  forall ext l, summary r !! ext = Some l ->
    l ≠ [] /\ exists e, e ∈ file_extensions Scenario.searcher /\ ext = lower e.
Proof.
  apply (scan_summary_counts Scenario.searcher Scenario.on_disk).
  vm_compute. reflexivity.
Defined.

(** * Searching file names *)

Module FilenameFacts.
Import Text Regex FS Searcher Spec Modes ModeFacts TextFacts SearchFacts LoopFacts.

Local Arguments reached : simpl never.

(** The records of the filename mode. *)
Lemma filename_record content file_path query cs c m :
  m ∈ _search_in_file content file_path query "filename" cs c ->
  m = {| file_ := file_path; type_ := "filename"; line_number := 0;
         match_ := path_name file_path; context := None;
         context_start_line := None |} /\
  occurs cs query (path_name file_path).
Proof.
  unfold _search_in_file. cbn [String.eqb Ascii.eqb Bool.eqb].
  destruct (_ || _) eqn:E; [|by intros ?%elem_of_nil].
  intros ->%list_elem_of_singleton. split; [done|].
  apply occurs_contains. by destruct cs; simpl in E; rewrite ?orb_false_r in E.
Qed.

Lemma filename_at_most_one content file_path query cs c :
  (length (_search_in_file content file_path query "filename" cs c) <= 1)%nat.
Proof.
  unfold _search_in_file. cbn [String.eqb Ascii.eqb Bool.eqb].
  destruct (_ || _); simpl; lia.
Qed.

Section Search.
Variables (self : CSharpCodeSearcher).
Variables (query search_type : string) (case_sensitive : bool)
          (max_results context_lines : Z).

(** When no file yields more than one match, the loop never passes the cap. *)
Lemma search_flat_unit l :
  (forall pf, (length (file_matches query search_type case_sensitive context_lines pf) <= 1)%nat) ->
  forall st,
    Z.of_nat (length (results_ st)) < max_results ->
    Z.of_nat (length (results_ (search_flat self query search_type case_sensitive
                                            max_results context_lines l st))) <= max_results.
Proof.
  intros Hone. induction l as [|pf l IH]; intros st Hst; simpl; [lia|].
  destruct (_should_include_file self pf.1 pf.2); simpl; [|by apply IH].
  pose proof (Hone pf) as H1. unfold file_matches in H1.
  destruct (f_text pf.2) as [content|]; [|by apply IH].
  match goal with |- context [reached ?m ?l] => destruct (reached m l) eqn:E end.
  - simpl. rewrite length_app. lia.
  - apply IH. simpl. by apply reached_false in E.
Qed.
End Search.
End FilenameFacts.

Import FilenameFacts.

(** X12: a search in filename mode with [max_results >= 1] returns every
    match it found ([total_matches] is the length of the returned list and
    does not exceed [max_results]); each record has line number 0, no
    context, the file name as its match, and the file name contains the
    query, compared lower-cased unless the search is case sensitive. *)
Theorem filename_search_records self (fs : disk) query case_sensitive
    max_results context_lines r :
  search_code self fs query "filename" case_sensitive max_results context_lines
    = SearchOk r ->
  1 <= max_results ->
  total_matches r = Z.of_nat (length (results r)) /\
  total_matches r <= max_results /\
  forall m, m ∈ results r ->
    line_number m = 0 /\ type_ m = "filename" /\
    context m = None /\ context_start_line m = None /\
    match_ m = path_name (file_ m) /\
    occurs case_sensitive query (path_name (file_ m)).
Proof.
  intros [= <-] Hmax. cbn [total_matches results].
  assert (Z.of_nat (length (results_ (search_run self fs query "filename" case_sensitive
                                                 max_results context_lines))) <= max_results)
    as Hle.
  { unfold search_run. rewrite search_walk_flat by (apply reached_false; simpl; lia).
    apply search_flat_unit; [|simpl; lia].
    intros [p f]. unfold file_matches. simpl. destruct (f_text f); [|simpl; lia].
    apply filename_at_most_one. }
  rewrite slice_to_all by done. split_and!; [done..|].
  intros m Hm.
  destruct (search_run_prefix self fs query "filename" case_sensitive max_results
              context_lines) as (post & _ & Hres).
  rewrite Hres in Hm. apply list_elem_of_In, in_flat_map in Hm as ([p f] & _ & Hm).
  apply list_elem_of_In in Hm. unfold file_matches in Hm. simpl in Hm.
  destruct (f_text f); [|by apply elem_of_nil in Hm].
  by apply filename_record in Hm as [-> Ho].
Qed.

Lemma filename_search_witness :
  let r := {| query_ := "foo"; search_type_ := "filename"; total_matches := 1;
              results := [ {| file_ := ["src"; "Foo.cs"]; type_ := "filename";
                              line_number := 0; match_ := "Foo.cs";
                              context := None; context_start_line := None |} ] |} in
  total_matches r = Z.of_nat (length (results r)) /\
  total_matches r <= 5 /\
  forall m, m ∈ results r ->
    line_number m = 0 /\ type_ m = "filename" /\
    context m = None /\ context_start_line m = None /\
    match_ m = path_name (file_ m) /\
    occurs false "foo" (path_name (file_ m)).
Proof.
  apply (filename_search_records Scenario.searcher Scenario.on_disk "foo" false 5 3).
  - vm_compute. reflexivity.
  - lia.
Defined.

(** * Reading one file *)

Module FileFacts.
Import Text Regex FS Searcher Spec Content TextFacts ClassMode ModeFacts.

Lemma join_app a b : join (a ++ b) = join a +:+ join b.
Proof.
  induction a as [|x a IH]; [done|]. simpl. unfold join in *. simpl.
  by rewrite IH, app_assoc_s.
Qed.

(** Joining the lines read gives the text back. *)
Lemma join_readlines s : join (readlines s) = s.
Proof.
  induction s as [|c s IH]; [done|]. simpl.
  destruct (Ascii.eqb c newline).
  - unfold join in *. simpl. by rewrite IH.
  - destruct (readlines s) as [|l ls].
    + unfold join in *. simpl in *. by rewrite <- IH.
    + unfold join in *. simpl in *. by rewrite app_cons, IH.
Qed.

Lemma slice_to_take {A} (l : list A) (b : Z) :
  slice_to l b = take (Z.to_nat (clamp_index (Z.of_nat (length l)) b)) l.
Proof.
  unfold slice_to, slice.
  assert (clamp_index (Z.of_nat (length l)) 0 = 0) as ->.
  { unfold clamp_index. destruct (Z.ltb_spec 0 0); lia. }
  rewrite drop_0. f_equal. lia.
Qed.

Lemma slice_to_length_min {A} (l : list A) (b : Z) :
  0 <= b -> Z.of_nat (length (slice_to l b)) = Z.min b (Z.of_nat (length l)).
Proof.
  intros Hb. rewrite slice_to_take, length_take. unfold clamp_index.
  destruct (Z.ltb_spec b 0); lia.
Qed.

Lemma enumerate_length {A} (l : list A) : forall start, length (enumerate l start) = length l.
Proof. induction l as [|x l IH]; intros start; simpl; [done | by rewrite IH]. Qed.

Lemma enumerate_lookup {A} (l : list A) : forall start (k : nat),
  enumerate l start !! k = (fun x => (start + Z.of_nat k, x)) <$> l !! k.
Proof.
  induction l as [|x l IH]; intros start k; [done|].
  cbn [enumerate]. destruct k as [|k].
  - cbn. by rewrite Z.add_0_r.
  - change (((start, x) :: enumerate l (start + 1)) !! S k)
      with (enumerate l (start + 1) !! k).
    change ((x :: l) !! S k) with (l !! k). rewrite IH.
    by replace (start + 1 + Z.of_nat k) with (start + Z.of_nat (S k)) by lia.
Qed.
End FileFacts.

Import Content FileFacts.

(** X13: for a readable file of [T] lines and [max_lines >= 0],
    [get_file_content] reports [T] as the total, returns [min max_lines T]
    lines, one numbered entry for each, and sets [truncated] exactly when
    it returns fewer lines than the file has. *)
Theorem file_content_bounds self (fs : disk) file_path f content max_lines :
  resolve self fs file_path = Some (File f) ->
  f_text f = Some content ->
  0 <= max_lines ->
  exists r,
    get_file_content self fs file_path max_lines = FileOk r /\
    fc_total_lines r = Z.of_nat (length (readlines content)) /\
    showing_lines r = Z.min max_lines (fc_total_lines r) /\
    Z.of_nat (length (fc_content r)) = showing_lines r /\
    (truncated r = true <-> showing_lines r < fc_total_lines r).
Proof.
  intros Hres Htext Hmax. unfold get_file_content. rewrite Hres, Htext.
  eexists. split; [reflexivity|].
  cbn [fc_total_lines showing_lines fc_content truncated].
  rewrite length_fmap, enumerate_length, slice_to_length_min by done.
  split_and!; [done..|]. rewrite bool_decide_eq_true. lia.
Qed.

Lemma file_content_bounds_witness :
  exists r,
    get_file_content Scenario.searcher Scenario.on_disk "src/Foo.cs" 3 = FileOk r /\
    fc_total_lines r = 6 /\
    showing_lines r = Z.min 3 (fc_total_lines r) /\
    Z.of_nat (length (fc_content r)) = showing_lines r /\
    (truncated r = true <-> showing_lines r < fc_total_lines r).
Proof.
  apply (file_content_bounds Scenario.searcher Scenario.on_disk "src/Foo.cs"
           Scenario.foo_cs
           ("namespace App.Models" +:+ Scenario.nl +:+ "{" +:+ Scenario.nl +:+
            "    public class Foo" +:+ Scenario.nl +:+ "    {" +:+ Scenario.nl +:+
            "    }" +:+ Scenario.nl +:+ "}" +:+ Scenario.nl) 3).
  - vm_compute. reflexivity.
  - reflexivity.
  - lia.
Defined.

(** X14: the raw text returned by [get_file_content] is an initial part of
    the text of the file, and the whole text when [max_lines] is at least
    the number of lines. *)
Theorem raw_content_is_prefix self (fs : disk) file_path f content max_lines :
  resolve self fs file_path = Some (File f) ->
  f_text f = Some content ->
  exists r rest,
    get_file_content self fs file_path max_lines = FileOk r /\
    content = raw_content r +:+ rest /\
    (Z.of_nat (length (readlines content)) <= max_lines -> raw_content r = content).
Proof.
  intros Hres Htext. unfold get_file_content. rewrite Hres, Htext.
  set (lines := readlines content).
  eexists. exists (join (drop (Z.to_nat (clamp_index (Z.of_nat (length lines)) max_lines)) lines)).
  split; [reflexivity|]. cbn [raw_content]. fold (join (slice_to lines max_lines)). split.
  - rewrite slice_to_take, <- join_app, take_drop. subst lines. by rewrite join_readlines.
  - intros Hmax. rewrite slice_to_all by done. subst lines. by rewrite join_readlines.
Qed.

Lemma raw_content_witness :
  exists r rest,
    get_file_content Scenario.searcher Scenario.on_disk "bin/Generated.cs" 1 = FileOk r /\
    "class Bar" = raw_content r +:+ rest /\
    (Z.of_nat (length (readlines "class Bar")) <= 1 -> raw_content r = "class Bar").
Proof.
  apply (raw_content_is_prefix Scenario.searcher Scenario.on_disk "bin/Generated.cs"
           Scenario.generated_cs "class Bar" 1).
  - vm_compute. reflexivity.
  - reflexivity.
Defined.

(** X15: the [k]-th numbered entry returned by [get_file_content] is the
    [k]-th line of the file, stripped on the right and preceded by its
    1-based number in a field of four characters, a colon and a blank. *)
Theorem numbered_lines_follow_file self (fs : disk) file_path f content max_lines :
  resolve self fs file_path = Some (File f) ->
  f_text f = Some content ->
  exists r,
    get_file_content self fs file_path max_lines = FileOk r /\
    forall (k : nat) entry,
      fc_content r !! k = Some entry ->
      exists line,
        readlines content !! k = Some line /\
        entry = format_4d (1 + Z.of_nat k) +:+ ": " +:+ rstrip line.
Proof.
  intros Hres Htext. unfold get_file_content. rewrite Hres, Htext.
  eexists. split; [reflexivity|]. cbn [fc_content]. intros k entry.
  rewrite list_lookup_fmap, enumerate_lookup, slice_to_take.
  destruct (take _ (readlines content) !! k) as [line|] eqn:E; [|done].
  simpl. intros [= <-]. exists line. split; [|done].
  apply lookup_take_Some in E as [E _]. done.
Qed.

Lemma numbered_lines_witness :
  exists r,
    get_file_content Scenario.searcher Scenario.on_disk "bin/Generated.cs" 100 = FileOk r /\
    forall (k : nat) entry,
      fc_content r !! k = Some entry ->
      exists line,
        readlines "class Bar" !! k = Some line /\
        entry = format_4d (1 + Z.of_nat k) +:+ ": " +:+ rstrip line.
Proof.
  apply (numbered_lines_follow_file Scenario.searcher Scenario.on_disk "bin/Generated.cs"
           Scenario.generated_cs "class Bar" 100).
  - vm_compute. reflexivity.
  - reflexivity.
Defined.

(** * The tool entry point and the located records *)

Module ToolFacts.
Import Text Regex FS Searcher Spec Tool TextFacts SearchFacts FileFacts.

Lemma file_ok_iff self (fs : disk) file_path max_lines :
  (exists r, get_file_content self fs file_path max_lines = FileOk r) <->
  exists f content, resolve self fs file_path = Some (File f) /\ f_text f = Some content.
Proof.
  unfold get_file_content.
  destruct (resolve self fs file_path) as [[f|d ch]|].
  - destruct (f_text f) as [content|] eqn:Ht.
    + split; [by exists f, content | by eexists].
    + split; [by intros [? ?] |].
      intros (f' & content & Hf & Hc). injection Hf as <-. congruence.
  - split; [by intros [? ?] | by intros (? & ? & ? & _)].
  - split; [by intros [? ?] | by intros (? & ? & ? & _)].
Qed.

(** The context of a record of a line-oriented mode. *)
Lemma context_of_record content file_path query search_type cs c m :
  0 <= c ->
  search_type ∈ ["content"; "class"; "method"; "variable"] ->
  m ∈ _search_in_file content file_path query search_type cs c ->
  exists ctx start line,
    context m = Some ctx /\ context_start_line m = Some start /\
    split_lines content !! Z.to_nat (line_number m - 1) = Some line /\
    ctx !! Z.to_nat (line_number m - start) = Some line /\
    match_ m = strip line /\
    Z.of_nat (length ctx) <= 2 * c + 1.
Proof.
  intros Hc Hmode Hm. apply search_in_file_lines in Hm as (k & line & Hk & _ & ->); [|done].
  pose proof (lookup_lt_Some _ _ _ Hk) as Hlt.
  set (lines := split_lines content) in *.
  set (a := Z.to_nat (Z.max 0 (1 + Z.of_nat k - 1 - c))).
  set (b := Z.to_nat (Z.min (Z.of_nat (length lines)) (1 + Z.of_nat k + c))).
  eexists _, _, line. cbn [context context_start_line line_number match_].
  split_and!; [reflexivity | reflexivity | | | done |].
  - by replace (Z.to_nat (1 + Z.of_nat k - 1)) with k by lia.
  - replace (Z.max 0 (1 + Z.of_nat k - 1 - c)) with (Z.of_nat a) by lia.
    replace (Z.min (Z.of_nat (length lines)) (1 + Z.of_nat k + c)) with (Z.of_nat b) by lia.
    rewrite slice_in_range by lia.
    replace (Z.to_nat (1 + Z.of_nat k - (Z.of_nat a + 1))) with (k - a)%nat by lia.
    rewrite lookup_take_lt by lia. rewrite lookup_drop.
    by replace (a + (k - a))%nat with k by lia.
  - replace (Z.max 0 (1 + Z.of_nat k - 1 - c)) with (Z.of_nat a) by lia.
    replace (Z.min (Z.of_nat (length lines)) (1 + Z.of_nat k + c)) with (Z.of_nat b) by lia.
    rewrite slice_in_range by lia. rewrite length_take, length_drop. lia.
Qed.

Lemma context_length content file_path query search_type cs c m ctx :
  0 <= c ->
  m ∈ _search_in_file content file_path query search_type cs c ->
  context m = Some ctx ->
  Z.of_nat (length ctx) <= 2 * c + 1.
Proof.
  intros Hc Hm Hctx.
  destruct (decide (search_type ∈ ["content"; "class"; "method"; "variable"])) as [I|I].
  - destruct (context_of_record _ _ _ _ _ _ _ Hc I Hm) as (ctx' & ? & ? & E & _ & _ & _ & _ & H).
    congruence.
  - revert Hm. unfold _search_in_file.
    rewrite (bool_decide_eq_false_2 _ I).
    destruct (String.eqb search_type "filename"); [|by intros ?%elem_of_nil].
    destruct (_ || _); [|by intros ?%elem_of_nil].
    intros ->%list_elem_of_singleton. done.
Qed.

Lemma result_origin self fs query search_type cs max_results c m :
  m ∈ results_ (search_run self fs query search_type cs max_results c) ->
  exists f content,
    (file_ m, f) ∈ eligible self fs /\ f_text f = Some content /\
    m ∈ _search_in_file content (file_ m) query search_type cs c.
Proof.
  intros Hm.
  destruct (search_run_prefix self fs query search_type cs max_results c) as (post & He & Hr).
  rewrite Hr in Hm.
  apply list_elem_of_In, in_flat_map in Hm as ([p f] & Hin & Hm).
  apply list_elem_of_In in Hin, Hm. unfold file_matches in Hm. simpl in Hm.
  destruct (f_text f) as [content|] eqn:Ht; [|by apply elem_of_nil in Hm].
  pose proof (search_in_file_path _ _ _ _ _ _ _ Hm) as ->.
  exists f, content. split_and!; [|done|done].
  rewrite He. apply elem_of_app. by left.
Qed.
End ToolFacts.

Import Tool ToolFacts.

(** X16: every record that a line-oriented search returns points into a file
    that the traversal accepted and could read: its line number is a line
    of that file whose stripped text is the recorded match, the context
    holds that very line at offset [line_number - context_start_line], and
    the context has at most [2 * context_lines + 1] lines. *)
Theorem search_records_locate self fs query search_type cs max_results c r m :
  0 <= c ->
  search_type ∈ ["content"; "class"; "method"; "variable"] ->
  search_code self fs query search_type cs max_results c = SearchOk r ->
  m ∈ results r ->
  exists f content ctx start line,
    (file_ m, f) ∈ eligible self fs /\ f_text f = Some content /\
    split_lines content !! Z.to_nat (line_number m - 1) = Some line /\
    match_ m = strip line /\
    context m = Some ctx /\ context_start_line m = Some start /\
    ctx !! Z.to_nat (line_number m - start) = Some line /\
    Z.of_nat (length ctx) <= 2 * c + 1.
Proof.
  intros Hc Hmode [= <-] Hm. cbn [results] in Hm.
  apply slice_to_subseteq, result_origin in Hm as (f & content & He & Ht & Hm).
  destruct (context_of_record _ _ _ _ _ _ _ Hc Hmode Hm)
    as (ctx & start & line & H1 & H2 & H3 & H4 & H5 & H6).
  exists f, content, ctx, start, line. by split_and!.
Qed.

Lemma search_records_witness :
  let m := {| file_ := ["src"; "Foo.cs"]; type_ := "class"; line_number := 3;
              match_ := "public class Foo";
              context := Some ["{"; "    public class Foo"; "    {"];
              context_start_line := Some 2 |} in
  exists f content ctx start line,
    (file_ m, f) ∈ eligible Scenario.searcher Scenario.on_disk /\ f_text f = Some content /\
    split_lines content !! Z.to_nat (line_number m - 1) = Some line /\
    match_ m = strip line /\
    context m = Some ctx /\ context_start_line m = Some start /\
    ctx !! Z.to_nat (line_number m - start) = Some line /\
    Z.of_nat (length ctx) <= 2 * 1 + 1.
Proof.
  intros m.
  apply (search_records_locate Scenario.searcher Scenario.on_disk "Foo" "class" false 50 1
           {| query_ := "Foo"; search_type_ := "class"; total_matches := 1; results := [m] |} m).
  - lia.
  - by repeat constructor.
  - vm_compute. reflexivity.
  - by repeat constructor.
Defined.

(** X17: for a file path written relative to the root, the tool entry
    point renders a reply with an [error] key in exactly these cases: a scan
    of a missing root, a search without a query, a file request without a
    path or for a path that is not a readable file under the root, and an
    action outside the four it knows.  Searching or analysing never reports
    an error, also when the root is missing. *)
Theorem tool_error_cases searcher fs kw :
  let action := default "search" (kw_action kw) in
  let query := default "" (kw_query kw) in
  (action = "get_file" -> relative query) ->
  is_Some (reply_error (execute_code_search searcher fs kw)) <->
    (action = "scan" /\ fs !! code_folder_path searcher = None) \/
    (action = "search" /\ query = "") \/
    (action = "get_file" /\
       (query = "" \/
        ~ exists f content,
            resolve searcher fs query = Some (File f) /\ f_text f = Some content)) \/
    action ∉ actions.
Proof.
  intros action query _. unfold execute_code_search. fold action. fold query.
  assert (forall a, a ∈ actions -> action = a -> action ∉ actions -> False) as Hin.
  { intros a Ha <- Hn. by apply Hn. }
  destruct (String.eqb_spec action "scan") as [Ea|Na].
  { unfold scan_codebase.
    destruct (fs !! code_folder_path searcher) as [n|] eqn:Hroot.
    - cbn [reply_error]. split; [by intros [? ?]|].
      intros [[_ ?]|[[? _]|[[? _]|Hn]]]; try congruence.
      exfalso. apply (Hin "scan"); [by repeat constructor|done|done].
    - cbn [reply_error]. split; [|by eexists]. intros _. by left. }
  destruct (String.eqb_spec action "analyze") as [Eb|Nb].
  { cbn [reply_error]. split; [by intros [? ?]|].
    intros [[? _]|[[? _]|[[? _]|Hn]]]; try congruence.
    exfalso. apply (Hin "analyze"); [by repeat constructor|done|done]. }
  destruct (String.eqb_spec action "search") as [Ec|Nc].
  { destruct (String.eqb_spec query "") as [Eq|Nq].
    - cbn [reply_error]. split; [|by eexists]. intros _. right. by left.
    - unfold search_code. cbn [reply_error]. split; [by intros [? ?]|].
      intros [[? _]|[[_ ?]|[[? _]|Hn]]]; try congruence.
      exfalso. apply (Hin "search"); [by repeat constructor|done|done]. }
  destruct (String.eqb_spec action "get_file") as [Ed|Nd].
  { destruct (String.eqb_spec query "") as [Eq|Nq].
    - cbn [reply_error]. split; [|by eexists]. intros _. right. right. left. auto.
    - pose proof (file_ok_iff searcher fs query 100) as Hok.
      destruct (get_file_content searcher fs query 100) as [r|e] eqn:Hg; cbn [reply_error].
      + split; [by intros [? ?]|].
        intros [[? _]|[[? _]|[[_ [?|Hno]]|Hn]]]; try congruence.
        * exfalso. apply Hno, Hok. by eexists.
        * exfalso. apply (Hin "get_file"); [by repeat constructor|done|done].
      + split; [|by eexists]. intros _. right. right. left. split; [done|]. right.
        intros H. apply Hok in H as [r ?]. congruence. }
  cbn [reply_error]. split; [|by eexists]. intros _. right. right. right.
  unfold actions. intros H.
  repeat (apply elem_of_cons in H as [?|H]; [done|]). by apply elem_of_nil in H.
Qed.

Lemma tool_error_witness :
  let kw := {| kw_action := Some "get_file"; kw_query := Some "src/Missing.cs";
               kw_search_type := None; kw_max_results := None;
               kw_case_sensitive := None |} in
  is_Some (reply_error (execute_code_search Scenario.searcher Scenario.on_disk kw)) <->
    ("get_file" = "scan" /\ Scenario.on_disk !! code_folder_path Scenario.searcher = None) \/
    ("get_file" = "search" /\ "src/Missing.cs" = "") \/
    ("get_file" = "get_file" /\
       ("src/Missing.cs" = "" \/
        ~ exists f content,
            resolve Scenario.searcher Scenario.on_disk "src/Missing.cs" = Some (File f) /\
            f_text f = Some content)) \/
    "get_file" ∉ actions.
Proof.
  intros kw. apply (tool_error_cases Scenario.searcher Scenario.on_disk kw).
  intros _. split; [reflexivity|]. vm_compute.
  intros H. repeat (apply elem_of_cons in H as [H|H]; [discriminate H|]).
  by apply elem_of_nil in H.
Defined.

(** X18: with the defaults that the entry point passes on, a search reply
    lists at most [max_results] records (20 when the argument is absent),
    each context has at most seven lines, and a file reply shows at most
    100 numbered lines. *)
Theorem tool_reply_bounded searcher fs kw :
  0 <= default 20 (kw_max_results kw) ->
  (forall r, execute_code_search searcher fs kw = SearchReplyOf (SearchOk r) ->
     query_ r <> "" /\
     Z.of_nat (length (results r)) <= default 20 (kw_max_results kw) /\
     forall m ctx, m ∈ results r -> context m = Some ctx -> (length ctx <= 7)%nat) /\
  (forall r, execute_code_search searcher fs kw = FileReplyOf (FileOk r) ->
     fc_file r <> "" /\
     showing_lines r <= 100 /\ Z.of_nat (length (fc_content r)) = showing_lines r).
Proof.
  intros Hmax. unfold execute_code_search.
  set (action := default "search" (kw_action kw)).
  set (query := default "" (kw_query kw)).
  destruct (String.eqb action "scan").
  { destruct (scan_codebase searcher fs) as [?|[?]]; by split. }
  destruct (String.eqb action "analyze"); [by split|].
  destruct (String.eqb action "search").
  { destruct (String.eqb_spec query "") as [Eq|Nq]; [by split|].
    split; [|done]. intros r [= <-].
    cbn [query_ results]. split_and!; [done| by apply slice_to_length |].
    intros m ctx Hm Hctx.
    apply slice_to_subseteq, result_origin in Hm as (f & content & _ & _ & Hm).
    pose proof (context_length _ _ _ _ _ 3 _ _ ltac:(lia) Hm Hctx). lia. }
  destruct (String.eqb action "get_file"); [|by split].
  destruct (String.eqb_spec query "") as [Eq|Nq]; [by split|].
  split; [done|]. intros r [= Hr]. unfold get_file_content in Hr.
  destruct (resolve searcher fs query) as [[f|d ch]|]; try done.
  destruct (f_text f) as [content|]; [|done].
  injection Hr as <-. cbn [fc_file showing_lines fc_content].
  split_and!; [done| by apply slice_to_length |].
  by rewrite length_fmap, enumerate_length.
Qed.

Lemma tool_reply_witness :
  let kw := {| kw_action := None; kw_query := Some "Foo"; kw_search_type := Some "class";
               kw_max_results := None; kw_case_sensitive := None |} in
  (forall r, execute_code_search Scenario.searcher Scenario.on_disk kw
             = SearchReplyOf (SearchOk r) ->
     query_ r <> "" /\
     Z.of_nat (length (results r)) <= default 20 (kw_max_results kw) /\
     forall m ctx, m ∈ results r -> context m = Some ctx -> (length ctx <= 7)%nat) /\
  (forall r, execute_code_search Scenario.searcher Scenario.on_disk kw
             = FileReplyOf (FileOk r) ->
     fc_file r <> "" /\
     showing_lines r <= 100 /\ Z.of_nat (length (fc_content r)) = showing_lines r).
Proof.
  intros kw. apply (tool_reply_bounded Scenario.searcher Scenario.on_disk kw).
  vm_compute. discriminate.
Defined.

(** * Edge cases of the configuration *)

Module EdgeFacts.
Import Text Regex FS Searcher Spec Tree TextFacts WalkFacts TreeFacts LoopFacts.

Lemma icontains_empty d : icontains "" d.
Proof. exists "", (lower d). reflexivity. Qed.

Lemma root_only self fs q fl :
  "" ∈ skip_folders self -> (q, fl) ∈ pruned_walk self fs -> q = [].
Proof.
  intros He [_ Hu]%pruned_entries_sound.
  destruct q as [|d q]; [done|]. exfalso.
  apply (Hu d ""); [by left | done | apply icontains_empty].
Qed.

Section NoCap.
Variables (self : CSharpCodeSearcher) (query search_type : string) (case_sensitive : bool)
          (max_results context_lines : Z).
Hypothesis Hcap : max_results <= 0.

Lemma reached_always l : reached max_results l = true.
Proof. unfold reached. apply Z.geb_le. lia. Qed.

Lemma search_files_nocap rp files : forall st,
  exists pre,
    opened (search_files self query search_type case_sensitive max_results
                         context_lines rp files st) = opened st ++ pre /\
    (forall pf, pf ∈ pre -> length pf.1 = S (length rp)) /\
    (length (texts pre) <= 1)%nat.
Proof.
  induction files as [|f files IH]; intros st; cbn [search_files].
  - exists []. rewrite app_nil_r. split_and!; [done | by intros ? ?%elem_of_nil | simpl; lia].
  - destruct (_should_include_file self (rp ++ [f_name f]) f); cbn [negb]; [|apply IH].
    destruct (f_text f) as [content|] eqn:Ht.
    + rewrite reached_always. cbn [opened]. exists [(rp ++ [f_name f], f)].
      split_and!; [done | |].
      * intros pf ->%list_elem_of_singleton. simpl. rewrite length_app. simpl. lia.
      * unfold texts. simpl. rewrite Ht. simpl. lia.
    + destruct (IH {| results_ := results_ st; opened := opened st ++ [(rp ++ [f_name f], f)] |})
        as (pre & Ho & Hp & Hl).
      exists ((rp ++ [f_name f], f) :: pre). cbn [opened] in Ho.
      rewrite Ho, <- app_assoc. split_and!; [done | |].
      * intros pf [->|Hin]%elem_of_cons; [|by apply Hp].
        simpl. rewrite length_app. simpl. lia.
      * unfold texts in *. simpl. rewrite Ht. done.
Qed.
End NoCap.
End EdgeFacts.

Import Samples EdgeFacts.

(** X19: an empty skip list does not switch skipping off: a searcher
    constructed with it still prunes by the ten default fragments, so no
    directory it visits has a name that contains one of them. *)
Theorem empty_skip_list_keeps_defaults path exts mb (fs : disk) q fl d fragment :
  (q, fl) ∈ pruned_walk (__init__ path (Some []) exts mb) fs ->
  d ∈ q ->
  fragment ∈ ["bin"; "obj"; ".vs"; ".git"; ".svn"; "packages";
              "node_modules"; "Debug"; "Release"; ".vscode"] ->
  ~ icontains fragment d.
Proof.
  intros [_ Hu]%pruned_entries_sound Hd Hf. by apply (Hu d fragment).
Qed.

Lemma empty_skip_list_witness : ~ icontains "obj" "src".
Proof.
  apply (empty_skip_list_keeps_defaults "/svc" None 10 svc_disk ["src"] [Scenario.foo_cs]).
  - vm_compute. right. by left.
  - by left.
  - right. by left.
Defined.

(** X20: when the empty string is among the skip-fragments, every
    sub-directory is pruned: the traversal visits the root alone, and every
    file that a scan, a search or an analysis handles lies directly in the
    root. *)
Theorem empty_fragment_prunes_subdirectories self (fs : disk) :
  "" ∈ skip_folders self ->
  (forall q fl, (q, fl) ∈ pruned_walk self fs -> q = []) /\
  (forall pf, pf ∈ walk_files (pruned_walk self fs) -> length pf.1 = 1%nat) /\
  (forall query search_type cs max_results c r m,
      search_code self fs query search_type cs max_results c = SearchOk r ->
      m ∈ results r -> length (file_ m) = 1%nat).
Proof.
  intros He.
  assert (forall pf, pf ∈ walk_files (pruned_walk self fs) -> length pf.1 = 1%nat) as Hw.
  { intros pf (q & fl & Hq & _ & ->)%files_of_entries.
    by rewrite (root_only _ _ _ _ He Hq). }
  split_and!; [intros q fl; by apply root_only | done |].
  intros query search_type cs max_results c r m [= <-] Hm. cbn [results] in Hm.
  apply slice_to_subseteq, result_origin in Hm as (f & content & Hel & _ & _).
  unfold eligible in Hel. apply list_elem_of_filter in Hel as [_ Hel].
  by apply Hw in Hel.
Qed.

Lemma empty_fragment_witness :
  (forall q fl, (q, fl) ∈ pruned_walk flat_searcher svc_disk -> q = []) /\
  (forall pf, pf ∈ walk_files (pruned_walk flat_searcher svc_disk) -> length pf.1 = 1%nat) /\
  (forall query search_type cs max_results c r m,
      search_code flat_searcher svc_disk query search_type cs max_results c = SearchOk r ->
      m ∈ results r -> length (file_ m) = 1%nat).
Proof.
  apply (empty_fragment_prunes_subdirectories flat_searcher svc_disk). by left.
Defined.

(** X21: with a result limit of zero or less the search stops after the
    first directory: every file it opens lies directly in the root, at
    most one of them is read successfully, and with a limit of exactly
    zero no record is returned whatever was found. *)
Theorem nonpositive_limit_stops_at_once self (fs : disk) query search_type cs max_results c :
  max_results <= 0 ->
  let st := search_run self fs query search_type cs max_results c in
  (forall pf, pf ∈ opened st -> length pf.1 = 1%nat) /\
  (length (texts (opened st)) <= 1)%nat /\
  (max_results = 0 ->
   forall r, search_code self fs query search_type cs max_results c = SearchOk r ->
             results r = []).
Proof.
  intros Hcap st.
  assert (exists pre, opened st = pre /\
                      (forall pf, pf ∈ pre -> length pf.1 = 1%nat) /\
                      (length (texts pre) <= 1)%nat) as (pre & -> & Hp & Hl).
  { subst st. unfold search_run, pruned_walk, walk_root.
    destruct (fs !! code_folder_path self) as [[f|d children]|]; cbn [walk search_walk opened].
    - exists []. split_and!; [done | by intros ? ?%elem_of_nil | simpl; lia].
    - rewrite reached_always by done.
      destruct (search_files_nocap self query search_type cs max_results c Hcap []
                  (subfiles children) {| results_ := []; opened := [] |})
        as (pre & Ho & Hp & Hl).
      exists pre. by rewrite Ho.
    - exists []. split_and!; [done | by intros ? ?%elem_of_nil | simpl; lia]. }
  split_and!; [done | done |].
  intros -> r [= <-]. cbn [results].
  match goal with |- slice_to ?l 0 = [] => pose proof (slice_to_length l 0 ltac:(lia)) as Hn end.
  apply nil_length_inv. lia.
Qed.

Lemma nonpositive_limit_witness :
  let st := search_run flat_searcher svc_disk "Get" "content" false 0 3 in
  (forall pf, pf ∈ opened st -> length pf.1 = 1%nat) /\
  (length (texts (opened st)) <= 1)%nat /\
  (0 = 0 ->
   forall r, search_code flat_searcher svc_disk "Get" "content" false 0 3 = SearchOk r ->
             results r = []).
Proof.
  apply (nonpositive_limit_stops_at_once flat_searcher svc_disk "Get" "content" false 0 3). lia.
Defined.
